(** * Resilient dispatch: circuit breaker, retry, registry, health aggregation

    A shallow embedding of the Go packages [resilience] (circuit breaker and
    retry with exponential backoff) and [proxy] (the gateway: service registry,
    reverse-proxy handler, health aggregation), followed by the properties
    the specification states about them.

    Conventions of the embedding.
    - Go's [int] and [int64] ([time.Duration]) are 64-bit two's complement
      (the [build-linux] target of the Makefile sets [GOARCH=amd64]); they
      are values of [Z] and every increment is followed by [wrap_int].
    - A [time.Time] is the number of nanoseconds on one clock axis; the zero
      [time.Time] is [0].  Each call of [time.Now] or [time.Since] in the
      source takes the clock reading as an explicit argument.
    - [float64] is the binary64 format: Rocq's primitive floats.
    - The mutex of the breaker is not modelled: every function below is one
      sequential run of the corresponding Go function.
    - A Go [error] is its message; [nil] is [None]. *)

From Stdlib Require Import ZArith Lia List Bool.
From Stdlib Require Import Floats.
From stdpp Require Import gmap strings pretty.

Local Open Scope Z_scope.

(** ** Machine integers, durations and clock readings *)

Module GoInt.

Definition min_int : Z := - 2 ^ 63.
Definition max_int : Z := 2 ^ 63 - 1.

(** Two's-complement wrap-around of a 64-bit signed integer. *)
Definition wrap_int (z : Z) : Z := (z + 2 ^ 63) mod 2 ^ 64 - 2 ^ 63.

Definition in_int (z : Z) : Prop := min_int <= z <= max_int.

(** [time.Time.Sub] saturates at the extreme durations instead of wrapping. *)
Definition saturate (z : Z) : Z := Z.max min_int (Z.min max_int z).

Definition millisecond : Z := 1000000.
Definition second : Z := 1000000000.

(** [time.Since(t)] evaluated when the clock reads [now]. *)
Definition time_Since (now t : Z) : Z := saturate (now - t).

End GoInt.

(** ** Package resilience *)

Module Resilience.
Import GoInt.

Definition error := string.

Inductive CircuitBreakerState : Set :=
| StateClosed
| StateHalfOpen
| StateOpen.

#[global] Instance CircuitBreakerState_eq_dec : EqDecision CircuitBreakerState.
Proof. solve_decision. Defined.

Record CircuitBreakerSettings : Set := {
  MaxFailures : Z;
  ResetTimeout : Z;
  SuccessThreshold : Z;
  Timeout : Z
}.

Record CircuitBreaker : Set := {
  state : CircuitBreakerState;
  failureCount : Z;
  successCount : Z;
  lastFailureTime : Z;
  settings : CircuitBreakerSettings
}.

Definition DefaultSettings : CircuitBreakerSettings :=
  {| MaxFailures := 5;
     ResetTimeout := 60 * second;
     SuccessThreshold := 3;
     Timeout := 30 * second |}.

(** The fields the Go literal leaves out take their zero value. *)
Definition NewCircuitBreaker (s : CircuitBreakerSettings) : CircuitBreaker :=
  {| state := StateClosed;
     failureCount := 0;
     successCount := 0;
     lastFailureTime := 0;
     settings := s |}.

Definition errCircuitOpen : error := "circuit breaker is open".

(** [getState]: the lazy Open -> HalfOpen transition.  The source reads the
    clock twice: once under the read lock ([now1]) and once more after it
    has taken the write lock ([now2]). *)
Definition getState (now1 now2 : Z) (cb : CircuitBreaker)
  : CircuitBreaker * CircuitBreakerState :=
  let cb' :=
    if decide (state cb = StateOpen) then
      if ResetTimeout (settings cb) <? time_Since now1 (lastFailureTime cb) then
        if bool_decide (state cb = StateOpen)
           && (ResetTimeout (settings cb) <? time_Since now2 (lastFailureTime cb))
        then {| state := StateHalfOpen;
                failureCount := failureCount cb;
                successCount := 0;
                lastFailureTime := lastFailureTime cb;
                settings := settings cb |}
        else cb
      else cb
    else cb in
  (cb', state cb').

Definition onSuccess (cb : CircuitBreaker) : CircuitBreaker :=
  let sc := wrap_int (successCount cb + 1) in
  if bool_decide (state cb = StateHalfOpen)
     && (SuccessThreshold (settings cb) <=? sc) then
    {| state := StateClosed;
       failureCount := 0;
       successCount := 0;
       lastFailureTime := lastFailureTime cb;
       settings := settings cb |}
  else if bool_decide (state cb = StateClosed) then
    {| state := state cb;
       failureCount := 0;
       successCount := sc;
       lastFailureTime := lastFailureTime cb;
       settings := settings cb |}
  else
    {| state := state cb;
       failureCount := failureCount cb;
       successCount := sc;
       lastFailureTime := lastFailureTime cb;
       settings := settings cb |}.

(** [now] is the reading of [time.Now()]. *)
Definition onFailure (now : Z) (cb : CircuitBreaker) : CircuitBreaker :=
  let fc := wrap_int (failureCount cb + 1) in
  {| state := if MaxFailures (settings cb) <=? fc then StateOpen else state cb;
     failureCount := fc;
     successCount := successCount cb;
     lastFailureTime := now;
     settings := settings cb |}.

(** What [GetStats] puts in its map. *)
Record Stats : Set := {
  stat_state : string;
  stat_failure_count : Z;
  stat_success_count : Z;
  stat_last_failure : Z
}.

Definition String (s : CircuitBreakerState) : string :=
  match s with
  | StateClosed => "CLOSED"
  | StateHalfOpen => "HALF_OPEN"
  | StateOpen => "OPEN"
  end.

Definition GetStats (cb : CircuitBreaker) : Stats :=
  {| stat_state := String (state cb);
     stat_failure_count := failureCount cb;
     stat_success_count := successCount cb;
     stat_last_failure := lastFailureTime cb |}.

(** *** Running a call under the breaker

    The protected function [fn] acts on some world [W] (a request counter,
    a response writer): it is a state-passing function.  That [fn] was
    invoked is visible in the world that comes back. *)

(** Which branch of the [select] in [executeWithTimeout] fires: the
    goroutine delivered the result of [fn], or the context was done first
    and [ctx.Err()] is the (non-nil) error given. *)
Inductive Select : Set :=
| SelDone
| SelCtxDone (err : error).

(** What one [Execute] observes of its environment: the two clock readings
    of [getState], the branch of the [select], the clock reading of
    [onFailure]. *)
Record Obs : Set := {
  t_check : Z;
  t_recheck : Z;
  pick : Select;
  t_fail : Z
}.

Section Calls.
Context {W : Type}.

Definition Fn : Type := W -> W * option error.

(** The goroutine runs [fn] in every case; when the context wins the
    [select] the result of [fn] is dropped. *)
Definition executeWithTimeout (sel : Select) (fn : Fn) (w : W)
  : W * option error :=
  let '(w', r) := fn w in
  (w', match sel with
       | SelDone => r
       | SelCtxDone e => Some e
       end).

Definition executeClosed (o : Obs) (fn : Fn) (cb : CircuitBreaker) (w : W)
  : CircuitBreaker * W * option error :=
  let '(w', err) := executeWithTimeout (pick o) fn w in
  match err with
  | Some e => (onFailure (t_fail o) cb, w', Some e)
  | None => (onSuccess cb, w', None)
  end.

Definition executeHalfOpen (o : Obs) (fn : Fn) (cb : CircuitBreaker) (w : W)
  : CircuitBreaker * W * option error :=
  let '(w', err) := executeWithTimeout (pick o) fn w in
  match err with
  | Some e => (onFailure (t_fail o) cb, w', Some e)
  | None => (onSuccess cb, w', None)
  end.

Definition Execute (o : Obs) (fn : Fn) (cb : CircuitBreaker) (w : W)
  : CircuitBreaker * W * option error :=
  let '(cb1, st) := getState (t_check o) (t_recheck o) cb in
  match st with
  | StateOpen => (cb1, w, Some errCircuitOpen)
  | StateHalfOpen => executeHalfOpen o fn cb1 w
  | StateClosed => executeClosed o fn cb1 w
  end.

(** A sequence of [Execute]s on one breaker, oldest first. *)
Fixpoint Executes (calls : list (Obs * Fn)) (cb : CircuitBreaker) (w : W)
  : CircuitBreaker * W :=
  match calls with
  | [] => (cb, w)
  | (o, fn) :: rest =>
      let '(cb', w', _) := Execute o fn cb w in
      Executes rest cb' w'
  end.

(** The world after every call of the list was invoked, in order. *)
Definition invoke_all (calls : list (Obs * Fn)) (w : W) : W :=
  fold_left (fun w c => (c.2 w).1) calls w.

(** The call fails: whatever the world, [executeWithTimeout] hands an
    error to the breaker. *)
Definition call_fails (c : Obs * Fn) : Prop :=
  forall w, (executeWithTimeout (pick c.1) c.2 w).2 <> None.

Definition call_succeeds (c : Obs * Fn) : Prop :=
  forall w, (executeWithTimeout (pick c.1) c.2 w).2 = None.

End Calls.

(** *** The breaker as a transition system

    The three places that touch the breaker, as operations that can follow
    each other in any order (this covers the orders in which concurrent
    [Execute]s reach them). *)
Inductive Op : Set :=
| OpGetState (now1 now2 : Z)
| OpOnSuccess
| OpOnFailure (now : Z).

Definition apply_op (op : Op) (cb : CircuitBreaker) : CircuitBreaker :=
  match op with
  | OpGetState now1 now2 => (getState now1 now2 cb).1
  | OpOnSuccess => onSuccess cb
  | OpOnFailure now => onFailure now cb
  end.

Definition run_ops (ops : list Op) (cb : CircuitBreaker) : CircuitBreaker :=
  fold_left (fun c op => apply_op op c) ops cb.

(** [within n s cb]: a breaker with settings [s] as it can be after [n]
    operations; its failure counter has not wrapped, and it is at least
    [MaxFailures] unless the breaker is Closed. *)
Definition within (n : Z) (s : CircuitBreakerSettings) (cb : CircuitBreaker) : Prop :=
  settings cb = s
  ∧ 0 ≤ failureCount cb ≤ n
  ∧ (state cb ≠ StateClosed → MaxFailures s ≤ failureCount cb).

(** *** Retry with exponential backoff *)

(** [float64(z)] for a 64-bit integer [z]: rounding to nearest, ties to even. *)
Definition int_to_float64 (z : Z) : float :=
  SF2Prim (binary_normalize prec emax z 0 false).

(** The integer a finite float truncates to (towards zero). *)
Definition truncate (s : bool) (m : positive) (e : Z) : Z :=
  let mag := if 0 <=? e then Z.shiftl (Z.pos m) e else Z.shiftr (Z.pos m) (- e) in
  if s then - mag else mag.

(** [int64(f)] (also [int(f)] and [time.Duration(f)]).  Go truncates towards
    zero; when the value does not fit, the result is implementation
    dependent: on amd64, the platform of the [build-linux] target, the
    conversion instruction yields the smallest integer. *)
Definition float64_to_int (f : float) : Z :=
  match Prim2SF f with
  | S754_zero _ => 0
  | S754_finite s m e =>
      let v := truncate s m e in
      if (min_int <=? v) && (v <=? max_int) then v else min_int
  | S754_infinity _ => min_int
  | S754_nan => min_int
  end.

Record Retry : Set := {
  MaxRetries : Z;
  BaseDelay : Z;
  MaxDelay : Z;
  Multiplier : float;
  Jitter : bool
}.

Definition DefaultRetry : Retry :=
  {| MaxRetries := 3;
     BaseDelay := 100 * millisecond;
     MaxDelay := 30 * second;
     Multiplier := 2%float;
     Jitter := true |}.

(** The loop [for i := 0; i < int(exp); i++] runs [int(exp)] times, and not
    at all when [int(exp)] is not positive. *)
Definition pow (base exp : float) : float :=
  if (exp =? 0)%float then 1%float
  else Nat.iter (Z.to_nat (float64_to_int exp)) (fun result => (result * base)%float) 1%float.

(** [rnd] is the value [rand.Float64()] returns, read only with [Jitter]. *)
Definition calculateDelay (r : Retry) (rnd : float) (attempt : Z) : Z :=
  let delay :=
    float64_to_int
      (int_to_float64 (BaseDelay r)
       * pow (Multiplier r) (int_to_float64 (wrap_int (attempt - 1))))%float in
  let delay := if MaxDelay r <? delay then MaxDelay r else delay in
  if Jitter r
  then float64_to_int (int_to_float64 delay * (0.5 + rnd * 0.5))%float
  else delay.

(** What one run of [Retry.Execute] leaves behind: the world after the
    calls of [fn], the waits it slept through (in order), the result. *)
Record RetryRun {W : Type} : Type := {
  run_world : W;
  run_sleeps : list Z;
  run_result : option error
}.
Arguments RetryRun : clear implicits.

Section RetryLoop.
Context {W : Type}.
Variable r : Retry.
(** [ctx_done n] is [Some e] when, in the [select] before attempt [n], the
    context is done first, with [ctx.Err() = e]. *)
Variable ctx_done : Z -> option error.
(** [rnd n] is the random number drawn before attempt [n]. *)
Variable rnd : Z -> float.
Variable fn : @Fn W.

(** The [for] loop of [Retry.Execute], from the test of its condition on.
    Each iteration takes one unit of [fuel]; [None] is a run that is still
    looping when the fuel is gone. *)
Fixpoint Retry_loop (fuel : nat) (attempt : Z) (lastErr : option error)
    (w : W) (sleeps : list Z) : option (RetryRun W) :=
  match fuel with
  | O => None
  | S fuel' =>
      if attempt <=? MaxRetries r then
        let waited :=
          if 0 <? attempt then
            let delay := calculateDelay r (rnd attempt) attempt in
            match ctx_done attempt with
            | Some e => inr e
            | None => inl (sleeps ++ [delay])
            end
          else inl sleeps in
        match waited with
        | inr e =>
            Some {| run_world := w; run_sleeps := sleeps; run_result := Some e |}
        | inl sleeps' =>
            let '(w', err) := fn w in
            match err with
            | Some e => Retry_loop fuel' (wrap_int (attempt + 1)) (Some e) w' sleeps'
            | None =>
                Some {| run_world := w'; run_sleeps := sleeps'; run_result := None |}
            end
        end
      else
        Some {| run_world := w; run_sleeps := sleeps; run_result := lastErr |}
  end.

Definition Retry_Execute (fuel : nat) (w : W) : option (RetryRun W) :=
  Retry_loop fuel 0 None w [].

End RetryLoop.

(** The context is never done while the loop waits. *)
Definition never_done : Z -> option error := fun _ => None.

(** The wait before retry attempt [attempt]. *)
Definition delay_at (r : Retry) (rnd : Z -> float) (attempt : Z) : Z :=
  calculateDelay r (rnd attempt) attempt.

(** A call that fails every time and counts how often it is invoked. *)
Definition failing_counter (e : error) : @Fn nat := fun n => (S n, Some e).

(** The delay the specification gives for retry attempt [n] when the
    multiplier is the integer [m]: [min(baseDelay * m^(n-1), maxDelay)]. *)
Definition delay_spec (base max_delay m n : Z) : Z :=
  Z.min (base * m ^ (n - 1)) max_delay.

End Resilience.

(** ** Package proxy *)

Module Proxy.
Import GoInt.

(** [CircuitBreaker] is a pointer in the source: breakers live in a heap and
    a configuration holds the address of its breaker ([None] is [nil]).  Two
    configurations that hold the same address share one breaker. *)
Record ServiceConfig : Set := {
  Name : string;
  URL : string;
  HealthPath : string;
  Timeout : Z;
  Retries : Z;
  CircuitBreaker : option positive
}.

(** The [services] map of the gateway (its tracer plays no part here). *)
Record Gateway : Type := {
  services : gmap string ServiceConfig
}.

Abbreviation Heap := (gmap positive Resilience.CircuitBreaker).

Definition NewGateway : Gateway := {| services := ∅ |}.

(** The map keeps the configuration as [RegisterService] completed it: the
    source writes the defaults through the pointer it was given and stores
    that pointer. *)
Definition RegisterService (service : ServiceConfig) (g : Gateway) (h : Heap)
  : Gateway * Heap :=
  let '(ref, h') :=
    match CircuitBreaker service with
    | None =>
        let l := fresh (dom h) in
        (l, <[l := Resilience.NewCircuitBreaker Resilience.DefaultSettings]> h)
    | Some l => (l, h)
    end in
  let service' :=
    {| Name := Name service;
       URL := URL service;
       HealthPath := HealthPath service;
       Timeout := if Timeout service =? 0 then 30 * second else Timeout service;
       Retries := Retries service;
       CircuitBreaker := Some ref |} in
  ({| services := <[Name service := service']> (services g) |}, h').

(** *** The response as the client sees it *)

Definition StatusOK : Z := 200.
Definition StatusNotFound : Z := 404.
Definition StatusBadGateway : Z := 502.
Definition StatusServiceUnavailable : Z := 503.

Inductive Body : Set :=
| JSON (fields : list (string * string))
| Raw (text : string)
| Upstream (payload : string).

(** One write to the response writer: a status line with a body. *)
Record Write : Set := {
  w_status : Z;
  w_body : Body
}.

(** The status line the client receives is the first one written. *)
Definition client_status (w : list Write) : option Z :=
  w_status <$> head w.

Definition dquote : string :=
  Strings.String.String (Ascii.ascii_of_nat 34) Strings.String.EmptyString.

(** The bytes the custom error handler writes. *)
Definition bad_gateway_text : string :=
  "{" +:+ dquote +:+ "error" +:+ dquote +:+ ": "
      +:+ dquote +:+ "Bad gateway" +:+ dquote +:+ "}".

(** What the round trip to the backend comes to. *)
Inductive RoundTrip : Set :=
| Responded (status : Z) (payload : string)
| Refused (err : Resilience.error).

(** [proxy.ServeHTTP] of [httputil.ReverseProxy] with the error handler the
    source installs: a backend response is copied through, a transport
    error is handed to the error handler, which answers 502. *)
Definition ServeHTTP (rt : RoundTrip) (w : list Write) : list Write :=
  match rt with
  | Responded status payload =>
      w ++ [ {| w_status := status; w_body := Upstream payload |} ]
  | Refused _ =>
      w ++ [ {| w_status := StatusBadGateway; w_body := Raw bad_gateway_text |} ]
  end.

(** [strings.TrimSuffix] and [strings.TrimPrefix]. *)
Definition TrimPrefix (s p : string) : string :=
  if Strings.String.prefix p s
  then Strings.String.substring (Strings.String.length p)
         (Strings.String.length s - Strings.String.length p) s
  else s.

Definition TrimSuffix (s p : string) : string :=
  let n := Strings.String.length s in
  let k := Strings.String.length p in
  if (k <=? n)%nat && Strings.String.eqb (Strings.String.substring (n - k) k s) p
  then Strings.String.substring 0 (n - k) s
  else s.

(** What a health probe comes to: the request could not be built, the
    request failed, or the backend answered. *)
Inductive Probe : Set :=
| ProbeNoRequest (err : Resilience.error)
| ProbeFailed (err : Resilience.error)
| ProbeAnswered (status : Z) (body : string).

Record ServiceHealth : Set := {
  healthy : bool;
  details : string;
  circuit_breaker : Resilience.Stats
}.

Record HealthResponse : Type := {
  code : Z;
  status_healthy : bool;
  health_services : gmap string ServiceHealth;
  timestamp : Z
}.

Section Handlers.
(** [url.Parse]: [Some e] is the error it reports, [None] a parsed URL. *)
Variable url_Parse : string -> option Resilience.error.
(** The outcome of [GET] on a health URL. *)
Variable probe : string -> Probe.

Definition proxyRequest (rt : RoundTrip) (service : ServiceConfig)
  : @Resilience.Fn (list Write) :=
  fun w =>
    match url_Parse (URL service) with
    | Some e => (w, Some ("invalid target URL: " +:+ e))
    | None => (ServeHTTP rt w, None)
    end.

(** The handler [ProxyHandler serviceName] serving one request.  [None] is
    the nil-pointer panic of a configuration without a breaker, which
    [RegisterService] rules out. *)
Definition ProxyHandler (serviceName : string) (o : Resilience.Obs)
    (rt : RoundTrip) (g : Gateway) (h : Heap) : option (Heap * list Write) :=
  match services g !! serviceName with
  | None =>
      Some (h, [ {| w_status := StatusNotFound;
                    w_body := JSON [("error", "Service not found")] |} ])
  | Some service =>
      l ← CircuitBreaker service;
      cb ← h !! l;
      let '(cb', w, err) :=
        Resilience.Execute o (proxyRequest rt service) cb [] in
      let h' := <[l := cb']> h in
      match err with
      | Some e =>
          if decide (e = Resilience.errCircuitOpen) then
            Some (h', w ++ [ {| w_status := StatusServiceUnavailable;
                                w_body := JSON [("error", "Service temporarily unavailable");
                                                ("service", serviceName)] |} ])
          else
            Some (h', w ++ [ {| w_status := StatusBadGateway;
                                w_body := JSON [("error", "Bad gateway");
                                                ("service", serviceName)] |} ])
      | None => Some (h', w)
      end
  end.

Definition checkServiceHealth (service : ServiceConfig) : bool * string :=
  if decide (HealthPath service = "") then (true, "No health check configured")
  else
    let healthURL :=
      TrimSuffix (URL service) "/" +:+ "/" +:+ TrimPrefix (HealthPath service) "/" in
    match probe healthURL with
    | ProbeNoRequest e => (false, "Failed to create health check request: " +:+ e)
    | ProbeFailed e => (false, "Health check failed: " +:+ e)
    | ProbeAnswered status body =>
        if (200 <=? status) && (status <? 300) then (true, "Health check passed")
        else (false, "Health check failed with status " +:+ pretty status
                       +:+ ": " +:+ body)
    end.

(** The entry of [results] for one configuration: the outcome of its
    check with the statistics of its breaker. *)
Definition entry_health (h : Heap) (service : ServiceConfig) : option ServiceHealth :=
  l ← CircuitBreaker service;
  cb ← h !! l;
  Some {| healthy := (checkServiceHealth service).1;
          details := (checkServiceHealth service).2;
          circuit_breaker := Resilience.GetStats cb |}.

(** The conjunction of the per-backend flags. *)
Definition all_healthy (entries : list (string * ServiceConfig)) : bool :=
  forallb (fun e => (checkServiceHealth e.2).1) entries.

(** One iteration of the loop of [HealthCheckHandler]; the accumulator is
    [results] with [overallHealthy], [None] after a nil-pointer panic. *)
Definition health_step (h : Heap)
    (acc : option (gmap string ServiceHealth * bool))
    (entry : string * ServiceConfig)
  : option (gmap string ServiceHealth * bool) :=
  '(results, overallHealthy) ← acc;
  let '(ok, det) := checkServiceHealth entry.2 in
  l ← CircuitBreaker entry.2;
  cb ← h !! l;
  Some (<[entry.1 := {| healthy := ok;
                        details := det;
                        circuit_breaker := Resilience.GetStats cb |}]> results,
        if negb ok then false else overallHealthy).

(** The handler over the entries of the map in the order [range] yields
    them, an order Go leaves unspecified. *)
Definition HealthCheck_over (entries : list (string * ServiceConfig))
    (h : Heap) (now : Z) : option HealthResponse :=
  '(results, overallHealthy) ← fold_left (health_step h) entries (Some (∅, true));
  Some {| code := if negb overallHealthy then StatusServiceUnavailable else StatusOK;
          status_healthy := overallHealthy;
          health_services := results;
          timestamp := now |}.

Definition HealthCheckHandler (g : Gateway) (h : Heap) (now : Z)
  : option HealthResponse :=
  HealthCheck_over (map_to_list (services g)) h now.

End Handlers.

(** Every registered configuration points to a breaker of the heap. *)
Definition breakers_allocated (g : Gateway) (h : Heap) : Prop :=
  ∀ name service, services g !! name = Some service →
    ∃ l cb, CircuitBreaker service = Some l ∧ h !! l = Some cb.

End Proxy.
(** ** Concrete breakers, calls and configurations used in examples *)

Module Fixtures.
Import GoInt Resilience.

(** A call that succeeds every time and counts how often it is invoked. *)
Definition succeeding_counter : @Fn nat := fun n => (S n, None).

(** An [Execute] whose clock reads [t] throughout and whose call returns
    before the breaker's timeout. *)
Definition at_time (t : Z) : Obs :=
  {| t_check := t; t_recheck := t; pick := SelDone; t_fail := t |}.

Definition fail_at (t : Z) : Obs * @Fn nat := (at_time t, failing_counter "boom").
Definition succeed_at (t : Z) : Obs * @Fn nat := (at_time t, succeeding_counter).

Definition settings_of (max_failures success_threshold : Z) : CircuitBreakerSettings :=
  {| MaxFailures := max_failures;
     ResetTimeout := 60 * second;
     SuccessThreshold := success_threshold;
     Timeout := 30 * second |}.

(** Five failures open a default breaker; a success 100 seconds later is
    the first HalfOpen trial. *)
Definition trip_then_one_success : list (Obs * @Fn nat) :=
  [fail_at 1; fail_at 2; fail_at 3; fail_at 4; fail_at 5; succeed_at (100 * second)].

(** As many failures as it takes for a 64-bit counter to wrap. *)
Definition failures_until_wrap : list Op :=
  repeat (OpOnFailure 0) (Z.to_nat (max_int + 1)).

Definition retry_no_jitter (max_retries : Z) : Retry :=
  {| MaxRetries := max_retries;
     BaseDelay := 100 * millisecond;
     MaxDelay := 30 * second;
     Multiplier := 2%float;
     Jitter := false |}.

(** A backend nobody listens at, registered without a breaker of its own. *)
Definition unreachable_service : Proxy.ServiceConfig :=
  {| Proxy.Name := "user-service";
     Proxy.URL := "http://127.0.0.1:1";
     Proxy.HealthPath := "/health";
     Proxy.Timeout := 0;
     Proxy.Retries := 0;
     Proxy.CircuitBreaker := None |}.

(** Another configuration under the same name. *)
Definition moved_service : Proxy.ServiceConfig :=
  {| Proxy.Name := "user-service";
     Proxy.URL := "http://10.0.0.7:8081";
     Proxy.HealthPath := "";
     Proxy.Timeout := 5 * second;
     Proxy.Retries := 0;
     Proxy.CircuitBreaker := None |}.

Definition order_service : Proxy.ServiceConfig :=
  {| Proxy.Name := "order-service";
     Proxy.URL := "http://orders:8082/";
     Proxy.HealthPath := "health";
     Proxy.Timeout := 30 * second;
     Proxy.Retries := 0;
     Proxy.CircuitBreaker := None |}.

(** Every URL parses. *)
Definition parses : string -> option error := fun _ => None.

(** Only the order service answers its health probe. *)
Definition orders_up (url : string) : Proxy.Probe :=
  if decide (url = "http://orders:8082/health")
  then Proxy.ProbeAnswered 200 "ok"
  else Proxy.ProbeFailed "connection refused".

(** The gateway after [RegisterService] of the given configurations. *)
Definition register_all (l : list Proxy.ServiceConfig)
  : Proxy.Gateway * gmap positive CircuitBreaker :=
  fold_left (fun gh service => Proxy.RegisterService service gh.1 gh.2) l
            (Proxy.NewGateway, ∅).

(** [n] requests for the service, one after the other, each refused by the
    backend's host; the responses are collected, oldest first. *)
Fixpoint refused_dispatches (n : nat) (g : Proxy.Gateway)
    (h : gmap positive CircuitBreaker)
  : option (gmap positive CircuitBreaker * list (list Proxy.Write)) :=
  match n with
  | O => Some (h, [])
  | S n' =>
      '(h1, w) ← Proxy.ProxyHandler parses "user-service" (at_time (Z.of_nat n'))
                   (Proxy.Refused "connection refused") g h;
      '(h2, ws) ← refused_dispatches n' g h1;
      Some (h2, w :: ws)
  end.

End Fixtures.

(** ** Further notions over the breaker and the retry loop *)

Module Outcomes.
Import GoInt Resilience.

(** The outcomes of a sequence of calls, oldest first: [true] is a success.
    [failure_run outs] is the number of failures since the last success. *)
Definition failure_run (outs : list bool) : nat :=
  fold_left (fun n ok => if ok : bool then O else S n) outs O.

(** The call has the given outcome. *)
Definition has_outcome {W : Type} (ok : bool) (c : Obs * @Fn W) : Prop :=
  if ok then call_succeeds c else call_fails c.

(** The world after [k] invocations of [fn]. *)
Definition after_calls {W : Type} (fn : @Fn W) (k : nat) (w : W) : W :=
  Nat.iter k (fun w => (fn w).1) w.

(** A call on a counter of invocations that fails [j] times with the
    number of the attempt in its message, then succeeds. *)
Definition flaky (j : nat) : @Fn nat :=
  fun n => (S n, if (n <? j)%nat then Some ("attempt " +:+ pretty n) else None).

End Outcomes.

(** ** Package proxy: sequences of requests, the health URL, the balancer *)

Module Dispatching.
Import GoInt Proxy.



(** What [ProxyHandler] writes after the breaker has rejected the call,
    and after the call came back with an error. *)
Definition unavailable (serviceName : string) : Write :=
  {| w_status := StatusServiceUnavailable;
     w_body := JSON [("error", "Service temporarily unavailable");
                     ("service", serviceName)] |}.

Definition bad_gateway (serviceName : string) : Write :=
  {| w_status := StatusBadGateway;
     w_body := JSON [("error", "Bad gateway"); ("service", serviceName)] |}.

(** The address [checkServiceHealth] probes. *)
Definition healthURL (service : ServiceConfig) : string :=
  TrimSuffix (URL service) "/" +:+ "/" +:+ TrimPrefix (HealthPath service) "/".

(** The breaker a registered name points to, if any. *)
Definition breaker_of (g : Gateway) (h : Heap) (name : string)
  : option Resilience.CircuitBreaker :=
  service ← services g !! name;
  l ← CircuitBreaker service;
  h !! l.

(** No two registered names share a breaker. *)
Definition breakers_distinct (g : Gateway) : Prop :=
  ∀ name1 name2 service1 service2,
    name1 ≠ name2 →
    services g !! name1 = Some service1 →
    services g !! name2 = Some service2 →
    CircuitBreaker service1 ≠ CircuitBreaker service2.

(** [RoundRobinBalancer]. *)
Record RoundRobinBalancer : Set := {
  current : Z
}.

(** What [SelectService] comes to: [nil], a service of the list, or the
    run-time panic of an index out of range. *)
Inductive Selection : Set :=
| SelectedNil
| Selected (service : ServiceConfig)
| IndexOutOfRange.

(** Go's [%] truncates towards zero ([Z.rem]); a negative index panics
    before the counter is incremented. *)
Definition SelectService (services : list ServiceConfig) (rb : RoundRobinBalancer)
  : RoundRobinBalancer * Selection :=
  if decide (length services = 0%nat) then (rb, SelectedNil)
  else
    let i := Z.rem (current rb) (Z.of_nat (length services)) in
    if i <? 0 then (rb, IndexOutOfRange)
    else match services !! Z.to_nat i with
         | Some service => ({| current := wrap_int (current rb + 1) |}, Selected service)
         | None => (rb, IndexOutOfRange)
         end.

(** [k] calls of [SelectService] in a row, with what each returned. *)
Fixpoint SelectServices (k : nat) (services : list ServiceConfig)
    (rb : RoundRobinBalancer) : RoundRobinBalancer * list Selection :=
  match k with
  | O => (rb, [])
  | S k' =>
      let '(rb1, s) := SelectService services rb in
      let '(rb2, ss) := SelectServices k' services rb1 in
      (rb2, s :: ss)
  end.

End Dispatching.

(** ** The gateway's main package *)

Module Main.
Import GoInt Proxy.

Record Config : Set := {
  Port : string;
  UserServiceURL : string;
  OrderServiceURL : string;
  ProductServiceURL : string;
  PaymentServiceURL : string;
  NotificationServiceURL : string;
  JWTSecret : string;
  Environment : string
}.

(** [os.LookupEnv] on an environment. *)
Definition getEnv (env : gmap string string) (key fallback : string) : string :=
  match env !! key with
  | Some value => value
  | None => fallback
  end.

Definition loadConfig (env : gmap string string) : Config :=
  {| Port := getEnv env "PORT" "8080";
     UserServiceURL := getEnv env "USER_SERVICE_URL" "user-service:8081";
     OrderServiceURL := getEnv env "ORDER_SERVICE_URL" "order-service:8082";
     ProductServiceURL := getEnv env "PRODUCT_SERVICE_URL" "product-service:8083";
     PaymentServiceURL := getEnv env "PAYMENT_SERVICE_URL" "payment-service:8084";
     NotificationServiceURL :=
       getEnv env "NOTIFICATION_SERVICE_URL" "notification-service:8085";
     JWTSecret := getEnv env "JWT_SECRET" "your-jwt-secret-key";
     Environment := getEnv env "ENVIRONMENT" "development" |}.

(** [resilience.NewCircuitBreaker(settings)]: a new breaker in the heap,
    and its address. *)
Definition new_breaker (s : Resilience.CircuitBreakerSettings) (h : Heap)
  : positive * Heap :=
  let l := fresh (dom h) in
  (l, <[l := Resilience.NewCircuitBreaker s]> h).

Definition backend (name url : string) (l : positive) : ServiceConfig :=
  {| Name := name;
     URL := "http://" +:+ url;
     HealthPath := "/health";
     Timeout := 30 * second;
     Retries := 0;
     CircuitBreaker := Some l |}.

(** [setupGateway]: the slice literal allocates the five breakers, the
    loop registers the five services. *)
Definition setupGateway (cfg : Config) (h : Heap) : Gateway * Heap :=
  let '(l1, h) :=
    new_breaker {| Resilience.MaxFailures := 5;
                   Resilience.ResetTimeout := 60 * second;
                   Resilience.SuccessThreshold := 3;
                   Resilience.Timeout := 30 * second |} h in
  let '(l2, h) := new_breaker Resilience.DefaultSettings h in
  let '(l3, h) := new_breaker Resilience.DefaultSettings h in
  let '(l4, h) := new_breaker Resilience.DefaultSettings h in
  let '(l5, h) := new_breaker Resilience.DefaultSettings h in
  let services :=
    [ backend "user-service" (UserServiceURL cfg) l1;
      backend "order-service" (OrderServiceURL cfg) l2;
      backend "product-service" (ProductServiceURL cfg) l3;
      backend "payment-service" (PaymentServiceURL cfg) l4;
      backend "notification-service" (NotificationServiceURL cfg) l5 ] in
  fold_left (fun gh service => RegisterService service gh.1 gh.2) services
            (NewGateway, h).

(** The routes of [setupAPIRoutes]: method, path, and the name handed to
    [ProxyHandler]. *)
Definition routes : list (string * string * string) :=
  [ ("POST", "/api/v1/auth/login", "user-service");
    ("GET", "/api/v1/products", "product-service");
    ("GET", "/api/v1/products/:id", "product-service");
    ("GET", "/api/v1/products/search", "product-service");
    ("POST", "/api/v1/users", "user-service");
    ("GET", "/api/v1/users/:id", "user-service");
    ("PUT", "/api/v1/users/:id", "user-service");
    ("DELETE", "/api/v1/users/:id", "user-service");
    ("GET", "/api/v1/users", "user-service");
    ("POST", "/api/v1/orders", "order-service");
    ("GET", "/api/v1/orders/:id", "order-service");
    ("PUT", "/api/v1/orders/:id/status", "order-service");
    ("POST", "/api/v1/orders/:id/cancel", "order-service");
    ("GET", "/api/v1/orders", "order-service");
    ("POST", "/api/v1/payments", "payment-service");
    ("GET", "/api/v1/payments/:id", "payment-service");
    ("POST", "/api/v1/payments/:id/refund", "payment-service");
    ("GET", "/api/v1/payments", "payment-service");
    ("POST", "/api/v1/notifications", "notification-service");
    ("GET", "/api/v1/notifications/:id", "notification-service");
    ("GET", "/api/v1/notifications", "notification-service");
    ("PUT", "/api/v1/notifications/:id/read", "notification-service");
    ("DELETE", "/api/v1/notifications/:id", "notification-service");
    ("POST", "/api/v1/notifications/subscribe", "notification-service");
    ("POST", "/api/v1/admin/products", "product-service");
    ("PUT", "/api/v1/admin/products/:id", "product-service");
    ("DELETE", "/api/v1/admin/products/:id", "product-service");
    ("PUT", "/api/v1/admin/products/:id/inventory", "product-service");
    ("POST", "/api/v1/webhooks/payments/:provider", "payment-service") ].

End Main.

(** ** Further concrete inputs *)

Module Scenarios.
Import GoInt Resilience Outcomes Proxy Dispatching Fixtures.

(** A failure, a success, a failure. *)
Definition mixed_outcomes : list bool := [false; true; false].
Definition mixed_calls : list (Obs * @Fn nat) := [fail_at 1; succeed_at 2; fail_at 3].

(** A breaker opened at second 5. *)
Definition opened (s : CircuitBreakerSettings) : Resilience.CircuitBreaker :=
  {| state := StateOpen;
     failureCount := MaxFailures s;
     successCount := 0;
     lastFailureTime := 5 * second;
     settings := s |}.


(** The context is cancelled during the wait before retry attempt 2. *)
Definition cancelled_at_2 : Z -> option error :=
  fun attempt => if attempt =? 2 then Some "context canceled" else None.

Definition no_random : Z -> float := fun _ => 0%float.

(** A call on a counter of invocations that fails every time, with the
    number of the attempt in its message. *)
Definition failing_numbered : @Fn nat :=
  fun n => (S n, Some ("attempt " +:+ pretty n)).

(** The store after the registration of two services without breakers of
    their own. *)
Definition two_services : Gateway * gmap positive Resilience.CircuitBreaker :=
  register_all [unreachable_service; order_service].

(** The same store when the breaker of the first service is Open. *)
Definition first_open : gmap positive Resilience.CircuitBreaker :=
  <[1%positive := opened DefaultSettings]> two_services.2.


Definition three_backends : list ServiceConfig :=
  [unreachable_service; moved_service; order_service].

End Scenarios.

(** * Properties *)

(** ** Machine integers and the clock *)

Module GoIntFacts.
Import GoInt.

Lemma wrap_int_id z : in_int z → wrap_int z = z.
Proof.
  unfold in_int, wrap_int, min_int, max_int. intros Hz.
  rewrite Z.mod_small; lia.
Qed.

Lemma wrap_int_succ z : 0 ≤ z < max_int → wrap_int (z + 1) = z + 1.
Proof.
  intros Hz. apply wrap_int_id. unfold in_int, min_int, max_int in *. lia.
Qed.

Lemma saturate_mono a b : a ≤ b → saturate a ≤ saturate b.
Proof. unfold saturate. lia. Qed.

(** A later reading of the clock gives a longer [time.Since]. *)
Lemma time_Since_mono now1 now2 t :
  now1 ≤ now2 → time_Since now1 t ≤ time_Since now2 t.
Proof. intros H. apply saturate_mono. lia. Qed.

End GoIntFacts.

(** Case analysis on every integer comparison of the goal. *)
Ltac zcases :=
  repeat match goal with
         | |- context [Z.leb ?a ?b] => destruct (Z.leb_spec a b)
         | |- context [Z.ltb ?a ?b] => destruct (Z.ltb_spec a b)
         end.

(** ** The circuit breaker *)

Module BreakerFacts.
Import GoInt GoIntFacts Resilience.

Lemma getState_not_open now1 now2 cb :
  state cb ≠ StateOpen → getState now1 now2 cb = (cb, state cb).
Proof.
  intros Hs. unfold getState. destruct (decide (state cb = StateOpen)); done.
Qed.

Lemma getState_open_early now1 now2 cb :
  state cb = StateOpen →
  time_Since now1 (lastFailureTime cb) ≤ ResetTimeout (settings cb) →
  getState now1 now2 cb = (cb, StateOpen).
Proof.
  intros Hs Ht. unfold getState.
  destruct (decide (state cb = StateOpen)); [|done].
  destruct (Z.ltb_spec (ResetTimeout (settings cb))
              (time_Since now1 (lastFailureTime cb))); [lia|].
  by rewrite Hs.
Qed.

Lemma getState_open_late now1 now2 cb :
  state cb = StateOpen →
  ResetTimeout (settings cb) < time_Since now1 (lastFailureTime cb) →
  now1 ≤ now2 →
  getState now1 now2 cb =
    ({| state := StateHalfOpen;
        failureCount := failureCount cb;
        successCount := 0;
        lastFailureTime := lastFailureTime cb;
        settings := settings cb |}, StateHalfOpen).
Proof.
  intros Hs Ht Hmono. unfold getState.
  pose proof (time_Since_mono now1 now2 (lastFailureTime cb) Hmono) as Hle.
  destruct (decide (state cb = StateOpen)); [|done].
  destruct (Z.ltb_spec (ResetTimeout (settings cb))
              (time_Since now1 (lastFailureTime cb))); [|lia].
  rewrite bool_decide_eq_true_2 by done.
  destruct (Z.ltb_spec (ResetTimeout (settings cb))
              (time_Since now2 (lastFailureTime cb))); [done|lia].
Qed.

Lemma settings_apply_op op cb : settings (apply_op op cb) = settings cb.
Proof.
  destruct op as [now1 now2| |now]; simpl.
  - unfold getState. repeat case_match; done.
  - unfold onSuccess. repeat case_match; done.
  - done.
Qed.

Section WithWorld.
Context {W : Type}.
Implicit Types (fn : @Fn W) (w : W) (calls : list (Obs * @Fn W)).

Lemma executeWithTimeout_world sel fn w :
  (executeWithTimeout sel fn w).1 = (fn w).1.
Proof. unfold executeWithTimeout. by destruct (fn w). Qed.

Lemma executeClosed_fails o fn cb w :
  call_fails (o, fn) →
  ∃ e, executeClosed o fn cb w = (onFailure (t_fail o) cb, (fn w).1, Some e).
Proof.
  intros Hf. specialize (Hf w). simpl in Hf.
  unfold executeClosed. rewrite <- (executeWithTimeout_world (pick o)).
  destruct (executeWithTimeout (pick o) fn w) as [w' [e|]]; [eauto|done].
Qed.

Lemma executeClosed_succeeds o fn cb w :
  call_succeeds (o, fn) →
  executeClosed o fn cb w = (onSuccess cb, (fn w).1, None).
Proof.
  intros Hf. specialize (Hf w). simpl in Hf.
  unfold executeClosed. rewrite <- (executeWithTimeout_world (pick o)).
  destruct (executeWithTimeout (pick o) fn w) as [w' [e|]]; [done|done].
Qed.

Lemma executeHalfOpen_eq o fn cb w :
  executeHalfOpen o fn cb w = executeClosed o fn cb w.
Proof. reflexivity. Qed.

(** Unless the breaker is Open, [Execute] runs the call and records its
    outcome on the breaker as it found it. *)
Lemma Execute_not_open o fn cb w :
  state cb ≠ StateOpen → Execute o fn cb w = executeClosed o fn cb w.
Proof.
  intros Hs. unfold Execute. rewrite getState_not_open by done.
  destruct (state cb); done.
Qed.

(** Failures while Closed: the counter follows the number of failed calls,
    every call is invoked, and the breaker opens when the counter meets
    [MaxFailures]. *)
Lemma Executes_failing calls : ∀ cb w,
  state cb = StateClosed →
  Forall call_fails calls →
  0 ≤ failureCount cb < MaxFailures (settings cb) →
  failureCount cb + Z.of_nat (length calls) ≤ MaxFailures (settings cb) →
  MaxFailures (settings cb) ≤ max_int →
  let r := Executes calls cb w in
  r.2 = invoke_all calls w
  ∧ failureCount r.1 = failureCount cb + Z.of_nat (length calls)
  ∧ settings r.1 = settings cb
  ∧ state r.1 =
      (if MaxFailures (settings cb) <=? failureCount cb + Z.of_nat (length calls)
       then StateOpen else StateClosed).
Proof.
  induction calls as [|[o fn] calls IH]; intros cb w Hs Hf Hfc Hlen Hmax.
  - simpl. rewrite Z.add_0_r. by zcases; [lia|].
  - apply Forall_cons in Hf as [Hf1 Hf].
    cbn [Executes length] in *. rewrite Nat2Z.inj_succ in *.
    rewrite Execute_not_open by (rewrite Hs; done).
    destruct (executeClosed_fails o fn cb w Hf1) as [e ->].
    assert (Hw : wrap_int (failureCount cb + 1) = failureCount cb + 1).
    { apply wrap_int_succ. lia. }
    set (cb1 := onFailure (t_fail o) cb).
    assert (Hfc1 : failureCount cb1 = failureCount cb + 1) by (by subst cb1; simpl).
    assert (Hset : settings cb1 = settings cb) by done.
    assert (Hst1 : state cb1 =
              if MaxFailures (settings cb) <=? failureCount cb + 1
              then StateOpen else StateClosed).
    { subst cb1; simpl. by rewrite Hw, Hs. }
    destruct (decide (failureCount cb + 1 = MaxFailures (settings cb))) as [Heq|Hne].
    + (* this failure opens the breaker: it was the last call *)
      destruct calls as [|c calls]; [|cbn [length] in Hlen; lia].
      cbn [Executes length invoke_all fold_left fst snd].
      rewrite Hfc1, Hst1. change (Z.succ (Z.of_nat 0)) with 1.
      repeat split; done.
    + assert (Hs1 : state cb1 = StateClosed).
      { rewrite Hst1. by zcases; [lia|]. }
      specialize (IH cb1 (fn w).1 Hs1 Hf).
      rewrite Hfc1, Hset in IH.
      destruct IH as (IH1 & IH2 & IH3 & IH4); [lia|lia|lia|].
      cbn [invoke_all fold_left fst snd]. fold (invoke_all calls (fn w).1).
      rewrite IH1, IH2, IH3, IH4.
      replace (failureCount cb + 1 + Z.of_nat (length calls))
        with (failureCount cb + Z.succ (Z.of_nat (length calls))) by lia.
      done.
Qed.

Lemma onSuccess_half_open cb :
  state cb = StateHalfOpen →
  0 ≤ successCount cb < max_int →
  onSuccess cb =
    if SuccessThreshold (settings cb) <=? successCount cb + 1
    then {| state := StateClosed;
            failureCount := 0;
            successCount := 0;
            lastFailureTime := lastFailureTime cb;
            settings := settings cb |}
    else {| state := StateHalfOpen;
            failureCount := failureCount cb;
            successCount := successCount cb + 1;
            lastFailureTime := lastFailureTime cb;
            settings := settings cb |}.
Proof.
  intros Hs Hsc. unfold onSuccess.
  rewrite wrap_int_succ, Hs by done.
  rewrite bool_decide_eq_true_2 by done.
  rewrite bool_decide_eq_false_2 by done.
  by zcases.
Qed.

(** Successes while HalfOpen: the success counter follows the number of
    calls, every call is invoked, and the breaker closes, with both
    counters at zero, when the counter meets [SuccessThreshold]. *)
Lemma Executes_succeeding calls : ∀ cb w,
  state cb = StateHalfOpen →
  Forall call_succeeds calls →
  0 ≤ successCount cb < SuccessThreshold (settings cb) →
  successCount cb + Z.of_nat (length calls) ≤ SuccessThreshold (settings cb) →
  SuccessThreshold (settings cb) ≤ max_int →
  let r := Executes calls cb w in
  r.2 = invoke_all calls w
  ∧ settings r.1 = settings cb
  ∧ lastFailureTime r.1 = lastFailureTime cb
  ∧ (if SuccessThreshold (settings cb) <=? successCount cb + Z.of_nat (length calls)
     then state r.1 = StateClosed ∧ failureCount r.1 = 0 ∧ successCount r.1 = 0
     else state r.1 = StateHalfOpen
          ∧ failureCount r.1 = failureCount cb
          ∧ successCount r.1 = successCount cb + Z.of_nat (length calls)).
Proof.
  induction calls as [|[o fn] calls IH]; intros cb w Hs Hf Hsc Hlen Hmax.
  - simpl. rewrite Z.add_0_r. by zcases; [lia|].
  - apply Forall_cons in Hf as [Hf1 Hf].
    cbn [Executes length] in *. rewrite Nat2Z.inj_succ in *.
    rewrite Execute_not_open by (rewrite Hs; done).
    rewrite (executeClosed_succeeds o fn cb w Hf1).
    rewrite onSuccess_half_open by (done || lia).
    destruct (decide (successCount cb + 1 = SuccessThreshold (settings cb))) as [Heq|Hne].
    + destruct calls as [|c calls]; [|cbn [length] in Hlen; lia].
      cbn [Executes length invoke_all fold_left fst snd].
      change (Z.succ (Z.of_nat 0)) with 1.
      by zcases; [|lia].
    + destruct (Z.leb_spec (SuccessThreshold (settings cb)) (successCount cb + 1)); [lia|].
      match goal with |- context [Executes calls ?c _] => set (cb1 := c) end.
      specialize (IH cb1 (fn w).1).
      cbn [invoke_all fold_left fst snd]. fold (invoke_all calls (fn w).1).
      subst cb1. cbn [state successCount settings failureCount lastFailureTime] in IH.
      destruct IH as (IH1 & IH2 & IH3 & IH4); [done|done|lia|lia|lia|].
      rewrite IH1, IH2, IH3.
      replace (successCount cb + Z.succ (Z.of_nat (length calls)))
        with (successCount cb + 1 + Z.of_nat (length calls)) by lia.
      done.
Qed.

End WithWorld.

(** *** Claims on the breaker *)

Section BreakerClaims.
Context {W : Type}.
Implicit Types (fn : @Fn W) (w : W) (calls : list (Obs * @Fn W)).

(** C2.  A Closed breaker with no failure on its counter and
    [MaxFailures = k], [k >= 1], sees [k] executes whose calls fail.  After
    the first [k-1] of them (and after every shorter run) the state is
    still Closed; the [k]-th execute invokes its call, returns the error,
    and leaves the breaker Open with [k] failures counted. *)
Theorem closed_opens_at_max_failures cb calls o fn w :
  state cb = StateClosed →
  failureCount cb = 0 →
  1 ≤ MaxFailures (settings cb) ≤ max_int →
  Z.of_nat (length calls) = MaxFailures (settings cb) - 1 →
  Forall call_fails calls →
  call_fails (o, fn) →
  let before := Executes calls cb w in
  let after := Execute o fn before.1 before.2 in
  (∀ j, state (Executes (take j calls) cb w).1 = StateClosed)
  ∧ state before.1 = StateClosed
  ∧ before.2 = invoke_all calls w
  ∧ after.1.2 = (fn before.2).1
  ∧ is_Some after.2
  ∧ state after.1.1 = StateOpen
  ∧ failureCount after.1.1 = MaxFailures (settings cb).
Proof.
  intros Hs Hfc Hk Hlen Hf Hlast before after.
  assert (Hclosed : ∀ l, Forall call_fails l →
            Z.of_nat (length l) ≤ MaxFailures (settings cb) - 1 →
            (Executes l cb w).2 = invoke_all l w
            ∧ failureCount (Executes l cb w).1 = Z.of_nat (length l)
            ∧ settings (Executes l cb w).1 = settings cb
            ∧ state (Executes l cb w).1 = StateClosed).
  { intros l Hl Hn.
    destruct (Executes_failing l cb w Hs Hl) as (H1 & H2 & H3 & H4); [lia..|].
    rewrite H1, H2, H3, H4, Hfc. split_and!; [done|lia|done|].
    by zcases; [lia|]. }
  destruct (Hclosed calls Hf) as (Hw & Hn & Hset & Hst); [lia|].
  split.
  { intros j. apply Hclosed; [by apply Forall_take|].
    rewrite length_take. lia. }
  subst after. fold before in Hw, Hn, Hset, Hst.
  rewrite Execute_not_open by (rewrite Hst; done).
  destruct (executeClosed_fails o fn before.1 before.2 Hlast) as [e ->].
  cbn [fst snd onFailure state failureCount].
  rewrite Hn, Hset, wrap_int_succ by lia.
  split_and!; [done|done|done|done| |lia].
  by zcases; [|lia].
Qed.

(** C3.  An execute on an Open breaker.  While [ResetTimeout] has not
    elapsed since [lastFailureTime], it returns the circuit-open error and
    leaves breaker and world as they were: the call is not invoked.  Once
    it has elapsed, [getState] moves the breaker to HalfOpen with
    [successCount] at 0 and the same execute invokes its call as a HalfOpen
    trial. *)
Theorem open_rejects_until_reset_timeout cb o fn w :
  state cb = StateOpen →
  (time_Since (t_check o) (lastFailureTime cb) ≤ ResetTimeout (settings cb) →
     Execute o fn cb w = (cb, w, Some errCircuitOpen))
  ∧ (ResetTimeout (settings cb) < time_Since (t_check o) (lastFailureTime cb) →
     t_check o ≤ t_recheck o →
     let half := (getState (t_check o) (t_recheck o) cb).1 in
     state half = StateHalfOpen
     ∧ successCount half = 0
     ∧ failureCount half = failureCount cb
     ∧ Execute o fn cb w = executeHalfOpen o fn half w
     ∧ (Execute o fn cb w).1.2 = (fn w).1).
Proof.
  intros Hs. split.
  - intros Hearly. unfold Execute.
    by rewrite getState_open_early.
  - intros Hlate Hmono half. subst half. unfold Execute.
    rewrite getState_open_late by done.
    cbn [fst snd state successCount failureCount]. split_and!; [done..|].
    unfold executeHalfOpen. rewrite <- (executeWithTimeout_world (pick o)).
    by destruct (executeWithTimeout (pick o) fn w) as [w' [e|]].
Qed.

(** C4, as the code has it.  A HalfOpen breaker with [successCount = 0],
    [SuccessThreshold = s], [s >= 1], and (as in every HalfOpen state)
    [failureCount] no smaller than [MaxFailures].  After [s] successful
    executes the state is Closed and both counters are 0.  After [n < s]
    successes the state is HalfOpen with [successCount = n], and one failed
    execute then moves the breaker to Open and records [lastFailureTime];
    it leaves [successCount] at [n]: the counter goes back to 0 when
    [getState] next moves the breaker from Open to HalfOpen. *)
Theorem half_open_closes_or_reopens cb calls o fn w :
  state cb = StateHalfOpen →
  successCount cb = 0 →
  1 ≤ SuccessThreshold (settings cb) ≤ max_int →
  MaxFailures (settings cb) ≤ failureCount cb →
  0 ≤ failureCount cb < max_int →
  Forall call_succeeds calls →
  Z.of_nat (length calls) ≤ SuccessThreshold (settings cb) →
  call_fails (o, fn) →
  let n := Z.of_nat (length calls) in
  let r := Executes calls cb w in
  let reopened := (Execute o fn r.1 r.2).1.1 in
  (n = SuccessThreshold (settings cb) →
     state r.1 = StateClosed ∧ failureCount r.1 = 0 ∧ successCount r.1 = 0)
  ∧ (n < SuccessThreshold (settings cb) →
     state r.1 = StateHalfOpen
     ∧ successCount r.1 = n
     ∧ state reopened = StateOpen
     ∧ lastFailureTime reopened = t_fail o
     ∧ successCount reopened = n
     ∧ failureCount reopened = failureCount cb + 1
     ∧ ∀ now1 now2,
         ResetTimeout (settings cb) < time_Since now1 (t_fail o) →
         now1 ≤ now2 →
         state (getState now1 now2 reopened).1 = StateHalfOpen
         ∧ successCount (getState now1 now2 reopened).1 = 0).
Proof.
  intros Hs Hsc Hthr Hfloor Hfc Hok Hlen Hfail n r reopened.
  destruct (Executes_succeeding calls cb w Hs Hok) as (Hw & Hset & Hlast & Hcase);
    [lia..|].
  fold r in Hw, Hset, Hlast, Hcase. rewrite Hsc, Z.add_0_l in Hcase. fold n in Hcase.
  split; intros Hn.
  - revert Hcase. by zcases; [|lia].
  - revert Hcase. zcases; [lia|]. intros (Hst & Hfc' & Hsc').
    subst reopened.
    rewrite Execute_not_open by (rewrite Hst; done).
    destruct (executeClosed_fails o fn r.1 r.2 Hfail) as [e ->].
    cbn [fst snd].
    assert (Hopen : state (onFailure (t_fail o) r.1) = StateOpen).
    { cbn [onFailure state]. rewrite Hfc', Hset, wrap_int_succ by lia.
      by zcases; [|lia]. }
    split_and!; [done|done|done|done|by rewrite <- Hsc'| |].
    + cbn [onFailure failureCount]. rewrite Hfc'. apply wrap_int_succ. lia.
    + intros now1 now2 Hlate Hmono.
      rewrite getState_open_late; [done|done| |done].
      cbn [onFailure settings lastFailureTime]. by rewrite Hset.
Qed.

End BreakerClaims.

(** *** Transitions and counters *)

(** C5, as the code has it.  Whatever the breaker, an operation that changes
    its state is one of four transitions, and the counters are then as
    follows.  HalfOpen to Closed (a success): both counters are 0.  Open to
    HalfOpen (the timeout check): [successCount] is 0, [failureCount] is
    kept.  Closed to Open and HalfOpen to Open (a failure): no counter is
    reset, [failureCount] is one more than before and at least
    [MaxFailures], [successCount] is kept. *)
Theorem counters_at_state_change op cb :
  let cb' := apply_op op cb in
  state cb' ≠ state cb →
  match state cb, state cb' with
  | StateHalfOpen, StateClosed =>
      op = OpOnSuccess ∧ failureCount cb' = 0 ∧ successCount cb' = 0
  | StateOpen, StateHalfOpen =>
      (∃ now1 now2, op = OpGetState now1 now2)
      ∧ successCount cb' = 0
      ∧ failureCount cb' = failureCount cb
  | StateClosed, StateOpen | StateHalfOpen, StateOpen =>
      (∃ now, op = OpOnFailure now)
      ∧ failureCount cb' = wrap_int (failureCount cb + 1)
      ∧ MaxFailures (settings cb) ≤ failureCount cb'
      ∧ successCount cb' = successCount cb
  | _, _ => False
  end.
Proof.
  intros cb' Hne. subst cb'.
  destruct op as [now1 now2| |now]; cbn [apply_op] in *.
  - unfold getState in *. cbn [fst] in *.
    destruct (decide (state cb = StateOpen)) as [Hs|Hs]; [|done].
    rewrite Hs in *. rewrite bool_decide_eq_true_2 in * by done.
    destruct (_ <? time_Since now1 _); [|done].
    destruct (true && _); [|done].
    cbn [state successCount failureCount]. eauto.
  - unfold onSuccess in *.
    destruct (state cb) eqn:Hs; cbn [state] in *.
    + rewrite bool_decide_eq_false_2, bool_decide_eq_true_2 in * by done.
      cbn [andb state] in *. congruence.
    + rewrite bool_decide_eq_true_2, bool_decide_eq_false_2 in * by done.
      cbn [andb] in *.
      destruct (_ <=? _); cbn [state failureCount successCount] in *; [done|congruence].
    + rewrite !bool_decide_eq_false_2 in * by done.
      cbn [andb state] in *. congruence.
  - cbn [onFailure state failureCount successCount] in *.
    destruct (Z.leb_spec (MaxFailures (settings cb)) (wrap_int (failureCount cb + 1)));
      [|done].
    destruct (state cb); [eauto|eauto|done].
Qed.

(** *** The failure floor of a tripped breaker *)

Lemma within_new s : within 0 s (NewCircuitBreaker s).
Proof. by split_and!. Qed.

Lemma within_step op n s cb :
  within n s cb → n < max_int → within (n + 1) s (apply_op op cb).
Proof.
  intros (Hset & Hfc & Hfloor) Hn.
  split; [by rewrite settings_apply_op|].
  destruct op as [now1 now2| |now]; cbn [apply_op].
  - unfold getState. cbn [fst].
    destruct (decide (state cb = StateOpen)) as [Hs|Hs]; [|split; [lia|done]].
    assert (MaxFailures s ≤ failureCount cb) by (apply Hfloor; by rewrite Hs).
    repeat case_match; cbn [failureCount state]; split; (lia || done).
  - unfold onSuccess.
    destruct (state cb) eqn:Hs.
    + rewrite bool_decide_eq_false_2, bool_decide_eq_true_2 by done.
      cbn [andb failureCount state]. split; [lia|done].
    + assert (MaxFailures s ≤ failureCount cb) by (by apply Hfloor).
      rewrite bool_decide_eq_true_2, bool_decide_eq_false_2 by done.
      cbn [andb]. destruct (_ <=? _); cbn [failureCount state];
        (split; [lia|done]).
    + assert (MaxFailures s ≤ failureCount cb) by (by apply Hfloor).
      rewrite !bool_decide_eq_false_2 by done.
      cbn [andb failureCount state]. split; [lia|done].
  - cbn [onFailure failureCount state]. rewrite wrap_int_succ by lia.
    split; [lia|]. rewrite Hset.
    destruct (Z.leb_spec (MaxFailures s) (failureCount cb + 1)); [done|].
    intros Hs. specialize (Hfloor Hs). lia.
Qed.

Lemma run_ops_snoc ops op cb :
  run_ops (ops ++ [op]) cb = apply_op op (run_ops ops cb).
Proof. unfold run_ops. by rewrite fold_left_app. Qed.

Lemma run_ops_cons op ops cb :
  run_ops (op :: ops) cb = run_ops ops (apply_op op cb).
Proof. reflexivity. Qed.

Lemma run_ops_app ops1 ops2 cb :
  run_ops (ops1 ++ ops2) cb = run_ops ops2 (run_ops ops1 cb).
Proof. unfold run_ops. by rewrite fold_left_app. Qed.

Lemma within_run s ops :
  Z.of_nat (length ops) ≤ max_int →
  within (Z.of_nat (length ops)) s (run_ops ops (NewCircuitBreaker s)).
Proof.
  induction ops as [|op ops IH] using rev_ind; intros Hlen.
  - apply within_new.
  - rewrite length_app in *. cbn [length] in *.
    rewrite run_ops_snoc.
    replace (Z.of_nat (length ops + 1)) with (Z.of_nat (length ops) + 1) by lia.
    apply within_step; [apply IH|]; lia.
Qed.

(** C10, as the code has it.  A breaker made by [NewCircuitBreaker] has gone
    through fewer than 2^63 - 1 operations, in any order (so that
    [failureCount] has not wrapped).  If it is Open or HalfOpen then
    [failureCount >= MaxFailures].  The next operation brings a non-zero
    [failureCount] back to 0 only if it is a success that finds the breaker
    HalfOpen, and closes it, or finds it Closed: never while the breaker is
    Open, or is HalfOpen and stays so.  And one failure in HalfOpen opens
    the breaker. *)
Theorem failure_floor_while_tripped s ops op :
  Z.of_nat (length ops) < max_int →
  let cb := run_ops ops (NewCircuitBreaker s) in
  let cb' := apply_op op cb in
  (state cb = StateOpen ∨ state cb = StateHalfOpen →
     MaxFailures s ≤ failureCount cb)
  ∧ (failureCount cb ≠ 0 → failureCount cb' = 0 →
     op = OpOnSuccess
     ∧ state cb' = StateClosed
     ∧ (state cb = StateHalfOpen ∨ state cb = StateClosed))
  ∧ (state cb = StateHalfOpen → ∀ now, state (onFailure now cb) = StateOpen).
Proof.
  intros Hlen cb cb'.
  destruct (within_run s ops) as (Hset & Hfc & Hfloor); [lia|].
  fold cb in Hset, Hfc, Hfloor.
  split_and!.
  - intros [Hs|Hs]; apply Hfloor; by rewrite Hs.
  - intros Hnz Hz. subst cb'.
    destruct op as [now1 now2| |now]; cbn [apply_op] in *.
    + exfalso. apply Hnz. rewrite <- Hz.
      unfold getState. cbn [fst]. by repeat case_match.
    + split; [done|]. unfold onSuccess in *.
      destruct (state cb) eqn:Hs; cbn [state] in *.
      * rewrite bool_decide_eq_false_2, bool_decide_eq_true_2 by done. auto.
      * rewrite bool_decide_eq_true_2, bool_decide_eq_false_2 in * by done.
        cbn [andb] in *.
        destruct (_ <=? _); cbn [state failureCount] in *; [auto|done].
      * rewrite !bool_decide_eq_false_2 in * by done.
        cbn [andb failureCount] in *. done.
    + cbn [onFailure failureCount] in Hz. rewrite wrap_int_succ in Hz by lia. lia.
  - intros Hs now. cbn [onFailure state]. rewrite wrap_int_succ by lia.
    rewrite Hset. assert (MaxFailures s ≤ failureCount cb) by (apply Hfloor; by rewrite Hs).
    by zcases; [|lia].
Qed.

(** *** The claims at concrete breakers *)

Section BreakerExamples.
Import Fixtures.

Lemma fail_at_fails t : call_fails (fail_at t).
Proof. intros w. discriminate. Qed.

Lemma succeed_at_succeeds t : call_succeeds (succeed_at t).
Proof. intros w. reflexivity. Qed.

(** With [MaxFailures = 2]: Closed after one failure, and the second
    failing execute invokes its call (the counter of calls reads 2) and
    opens the breaker. *)
Lemma closed_opens_at_max_failures_witness :
  let cb := NewCircuitBreaker (settings_of 2 1) in
  let before := Executes [fail_at 1] cb 0%nat in
  let after := Execute (at_time 2) (failing_counter "boom") before.1 before.2 in
  state before.1 = StateClosed
  ∧ after.1.2 = 2%nat
  ∧ state after.1.1 = StateOpen
  ∧ failureCount after.1.1 = 2.
Proof.
  intros cb before after.
  destruct (closed_opens_at_max_failures cb [fail_at 1] (at_time 2)
              (failing_counter "boom") 0%nat)
    as (_ & H1 & _ & H2 & _ & H3 & H4).
  - reflexivity.
  - reflexivity.
  - cbn. unfold max_int. lia.
  - reflexivity.
  - repeat constructor. apply fail_at_fails.
  - apply (fail_at_fails 2).
  - exact (conj H1 (conj H2 (conj H3 H4))).
Defined.

(** A breaker opened at second 5, with a reset timeout of 60 seconds:
    rejected at second 30, admitted as a HalfOpen trial at second 70. *)
Lemma open_rejects_until_reset_timeout_witness :
  let cb := {| state := StateOpen;
               failureCount := 5;
               successCount := 2;
               lastFailureTime := 5 * second;
               settings := DefaultSettings |} in
  Execute (at_time (30 * second)) succeeding_counter cb 0%nat
    = (cb, 0%nat, Some errCircuitOpen)
  ∧ state (getState (70 * second) (70 * second) cb).1 = StateHalfOpen
  ∧ successCount (getState (70 * second) (70 * second) cb).1 = 0
  ∧ (Execute (at_time (70 * second)) succeeding_counter cb 0%nat).1.2 = 1%nat.
Proof.
  intros cb.
  destruct (open_rejects_until_reset_timeout cb (at_time (30 * second))
              succeeding_counter 0%nat) as [Hearly _]; [reflexivity|].
  destruct (open_rejects_until_reset_timeout cb (at_time (70 * second))
              succeeding_counter 0%nat) as [_ Hlate]; [reflexivity|].
  destruct Hlate as (H1 & H2 & _ & _ & H3).
  - vm_compute. reflexivity.
  - reflexivity.
  - split; [|exact (conj H1 (conj H2 H3))].
    apply Hearly. vm_compute. discriminate.
Defined.

(** A HalfOpen breaker with [SuccessThreshold = 3]: after two successes a
    failure opens it and leaves [successCount] at 2. *)
Lemma half_open_closes_or_reopens_witness :
  let cb := {| state := StateHalfOpen;
               failureCount := 5;
               successCount := 0;
               lastFailureTime := 5 * second;
               settings := DefaultSettings |} in
  let calls := [succeed_at (70 * second); succeed_at (71 * second)] in
  let r := Executes calls cb 0%nat in
  let reopened := (Execute (at_time (72 * second)) (failing_counter "boom") r.1 r.2).1.1 in
  state r.1 = StateHalfOpen
  ∧ state reopened = StateOpen
  ∧ lastFailureTime reopened = 72 * second
  ∧ successCount reopened = 2.
Proof.
  intros cb calls r reopened.
  destruct (half_open_closes_or_reopens cb calls (at_time (72 * second))
              (failing_counter "boom") 0%nat) as [_ H].
  - reflexivity.
  - reflexivity.
  - cbn. unfold max_int. lia.
  - cbn. lia.
  - cbn. unfold max_int. lia.
  - repeat constructor; apply succeed_at_succeeds.
  - cbn. lia.
  - apply (fail_at_fails 72).
  - destruct H as (H1 & _ & H2 & H3 & H4 & _); [cbn; lia|].
    exact (conj H1 (conj H2 (conj H3 H4))).
Defined.

(** C4 fails as stated.  A default breaker ([MaxFailures = 5],
    [SuccessThreshold = 3]) is opened by five failures; 100 seconds later a
    successful execute is the first HalfOpen trial, and the breaker is
    HalfOpen with one success counted.  The next execute fails: the
    breaker is Open again and [successCount] is still 1, not 0. *)
Lemma half_open_failure_keeps_success_count :
  let r := Executes trip_then_one_success (NewCircuitBreaker DefaultSettings) 0%nat in
  let reopened := (Execute (at_time (101 * second)) (failing_counter "boom") r.1 r.2).1.1 in
  state r.1 = StateHalfOpen
  ∧ successCount r.1 = 1
  ∧ state reopened = StateOpen
  ∧ successCount reopened = 1
  ∧ successCount reopened ≠ 0.
Proof. vm_compute. split_and!; congruence. Qed.

(** A failure on a fresh breaker with [MaxFailures = 1]: Closed to Open. *)
Lemma counters_at_state_change_witness :
  let cb := NewCircuitBreaker (settings_of 1 1) in
  let cb' := apply_op (OpOnFailure 7) cb in
  failureCount cb' = wrap_int (failureCount cb + 1)
  ∧ MaxFailures (settings cb) ≤ failureCount cb'
  ∧ successCount cb' = successCount cb.
Proof.
  intros cb cb'.
  pose proof (counters_at_state_change (OpOnFailure 7) cb) as H.
  cbv zeta in H. change (apply_op (OpOnFailure 7) cb) with cb' in H.
  destruct H as (_ & H); [discriminate|exact H].
Defined.

(** C5 fails as stated.  On a fresh breaker with [MaxFailures = 1] a
    success and then a failure: the failure takes the breaker from Closed
    to Open and leaves both counters at 1.  Sixty-one seconds later the
    timeout check takes it from Open to HalfOpen and [failureCount] is
    still 1. *)
Lemma transitions_keep_counters :
  let cb0 := apply_op OpOnSuccess (NewCircuitBreaker (settings_of 1 1)) in
  let cb1 := apply_op (OpOnFailure 7) cb0 in
  let cb2 := apply_op (OpGetState (61 * second + 7) (61 * second + 7)) cb1 in
  state cb0 = StateClosed ∧ state cb1 = StateOpen
  ∧ failureCount cb1 ≠ 0 ∧ successCount cb1 ≠ 0
  ∧ state cb2 = StateHalfOpen ∧ failureCount cb2 ≠ 0.
Proof. vm_compute. split_and!; congruence. Qed.

(** Five failures open a default breaker and the timeout check, 100
    seconds later, makes it HalfOpen: the counter is at [MaxFailures] and a
    failure opens the breaker again. *)
Lemma failure_floor_while_tripped_witness :
  let ops := [OpOnFailure 1; OpOnFailure 2; OpOnFailure 3; OpOnFailure 4;
              OpOnFailure 5; OpGetState (100 * second) (100 * second)] in
  let cb := run_ops ops (NewCircuitBreaker DefaultSettings) in
  state cb = StateHalfOpen
  ∧ MaxFailures DefaultSettings ≤ failureCount cb
  ∧ state (onFailure (101 * second) cb) = StateOpen.
Proof.
  intros ops cb.
  destruct (failure_floor_while_tripped DefaultSettings ops OpOnSuccess)
    as (H1 & _ & H3).
  - cbn. unfold max_int. lia.
  - assert (Hs : state cb = StateHalfOpen) by reflexivity.
    exact (conj Hs (conj (H1 (or_intror Hs)) (H3 Hs (101 * second)))).
Defined.

(** Once the breaker with [MaxFailures = 1] is Open, failures only count. *)
Lemma repeat_failures_open (n : nat) : ∀ cb,
  settings cb = settings_of 1 1 →
  state cb = StateOpen →
  0 ≤ failureCount cb →
  failureCount cb + Z.of_nat n ≤ max_int →
  let cb' := run_ops (repeat (OpOnFailure 0) n) cb in
  settings cb' = settings_of 1 1
  ∧ state cb' = StateOpen
  ∧ failureCount cb' = failureCount cb + Z.of_nat n
  ∧ (lastFailureTime cb = 0 → lastFailureTime cb' = 0).
Proof.
  induction n as [|n IH]; intros cb Hset Hs Hfc Hn.
  - cbn. split_and!; [done|done|lia|done].
  - cbv zeta. cbn [repeat]. rewrite run_ops_cons.
    rewrite Nat2Z.inj_succ in Hn.
    destruct (IH (apply_op (OpOnFailure 0) cb)) as (H1 & H2 & H3 & H4).
    + done.
    + cbn. rewrite Hset, Hs. cbn. by case_match.
    + cbn. rewrite wrap_int_succ by lia. lia.
    + cbn. rewrite wrap_int_succ by lia. lia.
    + split_and!; [done|done| |auto].
      rewrite H3. cbn. rewrite wrap_int_succ by lia. lia.
Qed.

(** C10 fails as stated, twice.  First, a success resets [failureCount]
    while the breaker is and stays Closed: after two failures on a default
    breaker the counter is 2, a success brings it to 0, and no transition
    from HalfOpen to Closed took place.  Second, on a breaker with
    [MaxFailures = 1], 2^63 failures in a row wrap the 64-bit counter to
    the smallest integer; the timeout check then makes the breaker
    HalfOpen with [failureCount] below [MaxFailures], and a failure in
    that state leaves it HalfOpen. *)
Lemma failure_count_reset_and_wrap :
  (let cb := run_ops [OpOnFailure 1; OpOnFailure 2] (NewCircuitBreaker DefaultSettings) in
   let cb' := apply_op OpOnSuccess cb in
   state cb = StateClosed ∧ failureCount cb = 2
   ∧ state cb' = StateClosed ∧ failureCount cb' = 0)
  ∧ (let cb := run_ops (failures_until_wrap ++ [OpGetState (61 * second) (61 * second)])
                 (NewCircuitBreaker (settings_of 1 1)) in
     state cb = StateHalfOpen
     ∧ failureCount cb < MaxFailures (settings cb)
     ∧ state (onFailure 0 cb) = StateHalfOpen).
Proof.
  split; [vm_compute; split_and!; congruence|].
  cbv zeta. rewrite run_ops_snoc. unfold failures_until_wrap.
  remember (Z.to_nat (max_int - 1)) as m eqn:Hm.
  assert (Hlen : Z.of_nat m = max_int - 1).
  { subst m. apply Z2Nat.id. unfold max_int. lia. }
  replace (Z.to_nat (max_int + 1)) with (1 + (m + 1))%nat
    by (unfold max_int in *; lia).
  rewrite (repeat_app (OpOnFailure 0) 1 (m + 1)), (repeat_app (OpOnFailure 0) m 1).
  rewrite !run_ops_app.
  set (cb1 := run_ops (repeat (OpOnFailure 0) 1) (NewCircuitBreaker (settings_of 1 1))).
  destruct (repeat_failures_open m cb1) as (Hset & Hst & Hfc & Hlast).
  { reflexivity. }
  { reflexivity. }
  { vm_compute. discriminate. }
  { rewrite Hlen. vm_compute. discriminate. }
  specialize (Hlast eq_refl).
  rewrite Hlen in Hfc. change (failureCount cb1) with 1 in Hfc.
  replace (1 + (max_int - 1)) with max_int in Hfc by lia.
  destruct (run_ops (repeat (OpOnFailure 0) m) cb1) as [st fc sc lt se].
  cbn [settings state failureCount lastFailureTime] in Hset, Hst, Hfc, Hlast.
  subst st fc lt se.
  vm_compute. split_and!; congruence.
Qed.

End BreakerExamples.

End BreakerFacts.

(** ** Retry *)

Module RetryFacts.
Import GoInt GoIntFacts Resilience Fixtures.

Section AlwaysFailing.
Variable r : Retry.
Variable rnd : Z -> float.
Variable e : error.

(** From a retry attempt on, with [k] iterations left to fail. *)
Lemma Retry_loop_failing (k : nat) : ∀ attempt lastErr n sleeps fuel,
  1 ≤ attempt →
  attempt + Z.of_nat k = MaxRetries r + 1 →
  MaxRetries r < max_int →
  (k < fuel)%nat →
  Retry_loop r never_done rnd (failing_counter e) fuel attempt lastErr n sleeps =
  Some {| run_world := (n + k)%nat;
          run_sleeps := sleeps ++ (delay_at r rnd <$> seqZ attempt (Z.of_nat k));
          run_result := match k with O => lastErr | S _ => Some e end |}.
Proof.
  induction k as [|k IH]; intros attempt lastErr n sleeps fuel Ha Hk Hmax Hfuel;
    (destruct fuel as [|fuel]; [lia|]); cbn [Retry_loop].
  - destruct (Z.leb_spec attempt (MaxRetries r)); [lia|].
    by rewrite Nat.add_0_r, seqZ_nil, app_nil_r.
  - destruct (Z.leb_spec attempt (MaxRetries r)); [|lia].
    destruct (Z.ltb_spec 0 attempt); [|lia].
    cbn [never_done failing_counter].
    rewrite wrap_int_succ by lia.
    rewrite (IH (attempt + 1)) by lia.
    rewrite (seqZ_cons attempt (Z.of_nat (S k))) by lia.
    rewrite fmap_cons, <- app_assoc. cbn [app].
    replace (Z.pred (Z.of_nat (S k))) with (Z.of_nat k) by lia.
    replace (S n + k)%nat with (n + S k)%nat by lia.
    fold (delay_at r rnd attempt). by destruct k.
Qed.

(** A call that always fails is invoked [MaxRetries + 1] times, the wait
    before retry attempt [n] is [calculateDelay n], and the last error
    comes back; [MaxRetries + 2] units of fuel are enough. *)
Lemma Retry_Execute_exhausts fuel :
  0 ≤ MaxRetries r < max_int →
  (Z.to_nat (MaxRetries r) + 2 ≤ fuel)%nat →
  Retry_Execute r never_done rnd (failing_counter e) fuel 0%nat =
  Some {| run_world := Z.to_nat (MaxRetries r + 1);
          run_sleeps := delay_at r rnd <$> seqZ 1 (MaxRetries r);
          run_result := Some e |}.
Proof.
  intros Hmax Hfuel. unfold Retry_Execute.
  destruct fuel as [|fuel]; [lia|]. cbn [Retry_loop].
  destruct (Z.leb_spec 0 (MaxRetries r)); [|lia].
  cbn [Z.ltb Z.compare failing_counter].
  change (wrap_int (0 + 1)) with 1.
  rewrite (Retry_loop_failing (Z.to_nat (MaxRetries r))) by lia.
  rewrite Z2Nat.id by lia. cbn [app].
  replace (1 + Z.to_nat (MaxRetries r))%nat with (Z.to_nat (MaxRetries r + 1)) by lia.
  by destruct (Z.to_nat (MaxRetries r)).
Qed.

End AlwaysFailing.

(** The configuration of the specification's test: [maxRetries = 3],
    [baseDelay = 100ms], [multiplier = 2], no jitter.  Four calls, and the
    waits are 100ms, 200ms and 400ms. *)
Lemma retry_three_times rnd fuel :
  (5 ≤ fuel)%nat →
  Retry_Execute (retry_no_jitter 3) never_done rnd (failing_counter "boom") fuel 0%nat =
  Some {| run_world := 4%nat;
          run_sleeps := [100 * millisecond; 200 * millisecond; 400 * millisecond];
          run_result := Some "boom" |}.
Proof.
  intros Hfuel. rewrite Retry_Execute_exhausts; [|cbn; unfold max_int; lia|cbn; lia].
  f_equal.
Qed.

(** Without jitter the random number is not read. *)
Lemma calculateDelay_no_jitter r rnd rnd' attempt :
  Jitter r = false → calculateDelay r rnd attempt = calculateDelay r rnd' attempt.
Proof. intros Hj. unfold calculateDelay. by rewrite Hj. Qed.

(** With [baseDelay = 100ms], [multiplier = 2] and [maxDelay = 30s] the
    delay before each of the retry attempts 1 to 37 is the specified
    [min(baseDelay * 2^(n-1), maxDelay)]. *)
Lemma delay_matches_spec_up_to_37 max_retries rnd n :
  1 ≤ n ≤ 37 →
  calculateDelay (retry_no_jitter max_retries) rnd n
  = delay_spec (100 * millisecond) (30 * second) 2 n.
Proof.
  intros Hn.
  rewrite (calculateDelay_no_jitter _ rnd 0%float) by done.
  change (calculateDelay (retry_no_jitter 0) 0 n
          = delay_spec (100 * millisecond) (30 * second) 2 n).
  assert (Hall : forallb (fun n => calculateDelay (retry_no_jitter 0) 0 n
                                   =? delay_spec (100 * millisecond) (30 * second) 2 n)
                   (seqZ 1 37) = true) by (vm_compute; reflexivity).
  rewrite forallb_forall in Hall. apply Z.eqb_eq, Hall.
  apply list_elem_of_In, elem_of_seqZ. lia.
Qed.

(** C6 at a configuration the code misses.  [maxRetries = 40],
    [baseDelay = 100ms], [multiplier = 2], [maxDelay = 30s], no jitter,
    and a call that always fails.  The call is invoked 41 times.  Before
    retry attempt 38 the product [100ms * 2^37] is above the largest
    [time.Duration]: the conversion from [float64] yields the smallest
    integer, the comparison with [MaxDelay] does not cap it, and the wait
    is negative, where the specified delay is [maxDelay], 30 seconds. *)
Theorem retry_delay_overflows :
  let r := retry_no_jitter 40 in
  ∃ run,
    Retry_Execute r never_done (fun _ => 0%float) (failing_counter "boom") 42 0%nat
      = Some run
    ∧ run_world run = 41%nat
    ∧ run_sleeps run !! 36%nat = Some (30 * second)
    ∧ run_sleeps run !! 37%nat = Some min_int
    ∧ calculateDelay r 0%float 38 = min_int
    ∧ delay_spec (BaseDelay r) (MaxDelay r) 2 38 = 30 * second.
Proof.
  intros r. eexists. split.
  - subst r. apply Retry_Execute_exhausts; [cbn; unfold max_int; lia|cbn; lia].
  - cbn [run_world run_sleeps]. split_and!; [done|..]; by vm_compute.
Qed.

End RetryFacts.

(** ** The gateway *)

Module GatewayFacts.
Import GoInt GoIntFacts Resilience Proxy Fixtures.

(** *** Registration *)

Lemma breakers_allocated_new : breakers_allocated NewGateway ∅.
Proof. intros name service Hl. cbn [NewGateway services] in Hl. by rewrite lookup_empty in Hl. Qed.

(** C7, as the code has it.  [RegisterService] never fails: it stores the
    configuration under its name, with the default timeout and a fresh
    default breaker filled in where the configuration has none, whether or
    not the name is taken.  An entry already under that name is replaced;
    entries under other names and the breakers of the heap are kept. *)
Theorem register_replaces service g h :
  let g' := (RegisterService service g h).1 in
  let h' := (RegisterService service g h).2 in
  ∃ l,
    services g' !! Name service =
      Some {| Name := Name service;
              URL := URL service;
              HealthPath := HealthPath service;
              Timeout := if Timeout service =? 0 then 30 * second else Timeout service;
              Retries := Retries service;
              CircuitBreaker := Some l |}
    ∧ match CircuitBreaker service with
      | Some l0 => l = l0 ∧ h' = h
      | None => h !! l = None
                ∧ h' = <[l := NewCircuitBreaker DefaultSettings]> h
      end
    ∧ (∀ name, name ≠ Name service → services g' !! name = services g !! name)
    ∧ (∀ l' cb, h !! l' = Some cb → h' !! l' = Some cb).
Proof.
  intros g' h'. subst g' h'. unfold RegisterService.
  destruct (CircuitBreaker service) as [l0|] eqn:Hcb; cbn [fst snd services].
  - exists l0. split_and!; try done; [by rewrite lookup_insert_eq|].
    intros name Hne. by rewrite lookup_insert_ne.
  - set (l := fresh (dom h)).
    assert (Hfresh : h !! l = None).
    { apply not_elem_of_dom. apply is_fresh. }
    exists l. split_and!; try done; [by rewrite lookup_insert_eq| |].
    + intros name Hne. by rewrite lookup_insert_ne.
    + intros l' cb Hl'. rewrite lookup_insert_ne; [done|congruence].
Qed.

(** C7 fails as stated.  The name "user-service" is registered, then
    registered again with another configuration: the second
    [RegisterService] goes through and the entry under the name is the
    second configuration, not the first. *)
Lemma register_duplicate_overwrites :
  let gh1 := RegisterService unreachable_service NewGateway ∅ in
  let gh2 := RegisterService moved_service gh1.1 gh1.2 in
  URL <$> services gh1.1 !! "user-service" = Some "http://127.0.0.1:1"
  ∧ URL <$> services gh2.1 !! "user-service" = Some "http://10.0.0.7:8081"
  ∧ services gh2.1 !! "user-service" ≠ services gh1.1 !! "user-service".
Proof. vm_compute. split_and!; congruence. Qed.

(** The store after [RegisterService]: the map with the completed
    configuration under its name, and the heap with the breaker it points
    to. *)
Lemma RegisterService_store service g h :
  ∃ l service',
    services (RegisterService service g h).1 = <[Name service := service']> (services g)
    ∧ CircuitBreaker service' = Some l
    ∧ URL service' = URL service
    ∧ HealthPath service' = HealthPath service
    ∧ (CircuitBreaker service = Some l ∧ (RegisterService service g h).2 = h
       ∨ CircuitBreaker service = None
         ∧ h !! l = None
         ∧ (RegisterService service g h).2
             = <[l := NewCircuitBreaker DefaultSettings]> h).
Proof.
  unfold RegisterService.
  destruct (CircuitBreaker service) as [l0|] eqn:Hcb; cbn [fst snd services].
  - eexists l0, _. split_and!; [done..|]. by left.
  - eexists (fresh (dom h)), _. split_and!; [done..|]. right.
    split_and!; [done| |done]. apply not_elem_of_dom, is_fresh.
Qed.

Lemma RegisterService_allocated service g h :
  breakers_allocated g h →
  (∀ l, CircuitBreaker service = Some l → is_Some (h !! l)) →
  breakers_allocated (RegisterService service g h).1 (RegisterService service g h).2.
Proof.
  intros Hall Hown name s Hname.
  destruct (RegisterService_store service g h)
    as (l & service' & Hmap & Hl & _ & _ & Hheap).
  rewrite Hmap in Hname.
  destruct (decide (name = Name service)) as [->|Hne].
  - rewrite lookup_insert_eq in Hname. injection Hname as <-.
    destruct Hheap as [[Hs ->]|(Hs & Hfresh & ->)].
    + destruct (Hown l Hs) as [cb Hcb]. eauto.
    + exists l, (NewCircuitBreaker DefaultSettings). by rewrite lookup_insert_eq.
  - rewrite lookup_insert_ne in Hname by done.
    destruct (Hall name s Hname) as (l' & cb & H1 & H2).
    exists l', cb. split; [done|].
    destruct Hheap as [[_ ->]|(_ & Hfresh & ->)]; [done|].
    rewrite lookup_insert_ne; [done|congruence].
Qed.

(** *** Dispatch *)

(** A request whose round trip is refused by the backend's host, on a
    breaker that is not Open, the call returning before the breaker's
    timeout: the error handler answers 502, [proxyRequest] returns [nil],
    and the breaker records a success. *)
Lemma ProxyHandler_refused url_Parse name o e g h service l cb :
  services g !! name = Some service →
  CircuitBreaker service = Some l →
  h !! l = Some cb →
  url_Parse (URL service) = None →
  pick o = SelDone →
  state cb ≠ StateOpen →
  ProxyHandler url_Parse name o (Refused e) g h =
    Some (<[l := onSuccess cb]> h,
          [ {| w_status := StatusBadGateway; w_body := Raw bad_gateway_text |} ]).
Proof.
  intros Hname Hl Hcb Hurl Hpick Hs. unfold ProxyHandler.
  rewrite Hname, Hl. cbn [mbind option_bind]. rewrite Hcb. cbn [mbind option_bind].
  rewrite BreakerFacts.Execute_not_open by done.
  unfold executeClosed, executeWithTimeout, proxyRequest.
  by rewrite Hurl, Hpick.
Qed.

(** C1 on the code.  A service registered without a breaker gets a default
    one ([MaxFailures = 5]).  Five requests in a row are refused by the
    backend's host.  Each client receives 502; the breaker has counted no
    failure and five successes, and it is still Closed. *)
Theorem refused_dispatch_counts_as_success :
  let gh := register_all [unreachable_service] in
  match refused_dispatches 5 gh.1 gh.2 with
  | Some (h', responses) =>
      length responses = 5%nat
      ∧ Forall (fun w => client_status w = Some StatusBadGateway) responses
      ∧ GetStats <$> gh.2 !! 1%positive =
          Some {| stat_state := "CLOSED"; stat_failure_count := 0;
                  stat_success_count := 0; stat_last_failure := 0 |}
      ∧ GetStats <$> h' !! 1%positive =
          Some {| stat_state := "CLOSED"; stat_failure_count := 0;
                  stat_success_count := 5; stat_last_failure := 0 |}
  | None => False
  end.
Proof. vm_compute. split_and!; [done| |done|done]. repeat constructor. Qed.

(** *** Health aggregation *)

(** X19.  A backend counts as healthy exactly when it has no health path,
    or when its probe is answered with a status from 200 to 299; a request
    that cannot be built or fails, and every other status, make it
    unhealthy. *)
Lemma checkServiceHealth_healthy probe service :
  (checkServiceHealth probe service).1 = true ↔
  HealthPath service = ""
  ∨ ∃ status body,
      probe (TrimSuffix (URL service) "/" +:+ "/" +:+ TrimPrefix (HealthPath service) "/")
        = ProbeAnswered status body
      ∧ 200 ≤ status < 300.
Proof.
  unfold checkServiceHealth.
  destruct (decide (HealthPath service = "")) as [Hp|Hp]; [by split; auto|].
  destruct (probe _) as [e|e|status body]; cbn [fst].
  - split; [done|]. intros [?|(? & ? & ? & ?)]; done.
  - split; [done|]. intros [?|(? & ? & ? & ?)]; done.
  - destruct (Z.leb_spec 200 status), (Z.ltb_spec status 300); cbn [andb fst];
      (split; [first [done | intros _; right; exists status, body; split; [done|lia]] |]);
      intros [?|(? & ? & [= <- <-] & ?)]; first [done | lia].
Qed.

Section Health.
Variable probe : string -> Probe.
Variable h : Heap.

Lemma health_step_entry results overall name service e :
  entry_health probe h service = Some e →
  health_step probe h (Some (results, overall)) (name, service) =
    Some (<[name := e]> results, overall && healthy e).
Proof.
  unfold entry_health, health_step. cbn [mbind option_bind fst snd].
  destruct (checkServiceHealth probe service) as [ok det].
  destruct (CircuitBreaker service) as [l|]; [|done]. cbn [mbind option_bind].
  destruct (h !! l) as [cb|]; [|done]. cbn [mbind option_bind fst snd].
  intros [= <-]. cbn [healthy]. by destruct ok, overall.
Qed.

Lemma entry_health_healthy service e :
  entry_health probe h service = Some e →
  healthy e = (checkServiceHealth probe service).1.
Proof.
  unfold entry_health. intros He.
  destruct (CircuitBreaker service) as [l|]; [|done]. cbn [mbind option_bind] in He.
  destruct (h !! l) as [cb|]; [|done]. cbn [mbind option_bind] in He.
  by injection He as <-.
Qed.

(** The loop over any list of entries whose breakers are allocated. *)
Lemma health_fold entries : ∀ results overall,
  Forall (fun e => is_Some (entry_health probe h e.2)) entries →
  ∃ results',
    fold_left (health_step probe h) entries (Some (results, overall))
      = Some (results', overall && all_healthy probe entries)
    ∧ (∀ name, name ∉ entries.*1 → results' !! name = results !! name)
    ∧ (NoDup entries.*1 →
       ∀ name service, (name, service) ∈ entries →
         results' !! name = entry_health probe h service).
Proof.
  induction entries as [|[name0 service0] entries IH]; intros results overall Hall.
  - exists results. cbn. rewrite andb_true_r. split_and!; [done|done|].
    intros _ name service Hin. by apply elem_of_nil in Hin.
  - apply Forall_cons in Hall as [[e0 He0] Hall].
    cbn [fold_left]. rewrite (health_step_entry _ _ _ _ e0 He0).
    destruct (IH (<[name0 := e0]> results) (overall && healthy e0) Hall)
      as (results' & Hfold & Hout & Hin).
    exists results'. split_and!.
    + rewrite Hfold. f_equal. f_equal. unfold all_healthy. cbn [forallb snd].
      by rewrite (entry_health_healthy _ _ He0), andb_assoc.
    + intros name Hname. cbn [fmap list_fmap fst] in Hname.
      apply not_elem_of_cons in Hname as [Hne Hname].
      rewrite Hout by done. by rewrite lookup_insert_ne.
    + intros Hnd name service Hmem. cbn [fmap list_fmap fst] in Hnd.
      apply NoDup_cons in Hnd as [Hfresh Hnd].
      apply elem_of_cons in Hmem as [[= -> ->]|Hmem].
      * rewrite Hout by done. by rewrite lookup_insert_eq.
      * by apply Hin.
Qed.

End Health.

(** C8.  Every registered configuration has its breaker in the heap.
    Whatever the order in which [range] yields the entries of the map, the
    handler answers, and with the same response.  Its [healthy] flag is
    the conjunction of the per-backend flags; the status is 200 when the
    flag is true and 503 otherwise; and the breakdown has one entry per
    registered backend, with the result of its check and the state name
    and counters of its breaker. *)
Theorem health_check_aggregates probe g h now entries :
  breakers_allocated g h →
  entries ≡ₚ map_to_list (services g) →
  ∃ resp,
    HealthCheck_over probe entries h now = Some resp
    ∧ HealthCheckHandler probe g h now = Some resp
    ∧ status_healthy resp = all_healthy probe (map_to_list (services g))
    ∧ (status_healthy resp = true ↔
       ∀ name e, health_services resp !! name = Some e → healthy e = true)
    ∧ code resp = (if status_healthy resp then 200 else 503)
    ∧ timestamp resp = now
    ∧ dom (health_services resp) = dom (services g)
    ∧ ∀ name service, services g !! name = Some service →
        ∃ l cb e,
          CircuitBreaker service = Some l
          ∧ h !! l = Some cb
          ∧ health_services resp !! name = Some e
          ∧ healthy e = (checkServiceHealth probe service).1
          ∧ details e = (checkServiceHealth probe service).2
          ∧ stat_state (circuit_breaker e) = String (state cb)
          ∧ stat_failure_count (circuit_breaker e) = failureCount cb
          ∧ stat_success_count (circuit_breaker e) = successCount cb.
Proof.
  intros Halloc Hperm.
  assert (Hentry : ∀ name service, services g !! name = Some service →
            ∃ l cb, CircuitBreaker service = Some l ∧ h !! l = Some cb
                    ∧ entry_health probe h service =
                        Some {| healthy := (checkServiceHealth probe service).1;
                                details := (checkServiceHealth probe service).2;
                                circuit_breaker := GetStats cb |}).
  { intros name service Hname.
    destruct (Halloc name service Hname) as (l & cb & Hl & Hcb).
    exists l, cb. split_and!; [done|done|].
    unfold entry_health. rewrite Hl. cbn. by rewrite Hcb. }
  assert (Hok : ∀ l, l ≡ₚ map_to_list (services g) →
            Forall (fun e => is_Some (entry_health probe h e.2)) l
            ∧ NoDup l.*1).
  { intros l Hl. split.
    - apply Forall_forall. intros [name service] Hin. rewrite Hl in Hin.
      apply elem_of_map_to_list in Hin. cbn [snd].
      destruct (Hentry name service Hin) as (? & ? & _ & _ & ->). eauto.
    - rewrite Hl. apply NoDup_fst_map_to_list. }
  (* the loop in the order of [entries], and in the order of [map_to_list] *)
  destruct (Hok entries Hperm) as [Hall Hnd].
  destruct (health_fold probe h entries ∅ true Hall) as (res & Hfold & Hout & Hin).
  destruct (Hok (map_to_list (services g)) (reflexivity _)) as [Hall0 Hnd0].
  destruct (health_fold probe h (map_to_list (services g)) ∅ true Hall0)
    as (res0 & Hfold0 & Hout0 & Hin0).
  specialize (Hin Hnd). specialize (Hin0 Hnd0).
  assert (Hlookup : ∀ (res1 : gmap string ServiceHealth) l,
            l ≡ₚ map_to_list (services g) →
            (∀ name, name ∉ l.*1 → res1 !! name = (∅ : gmap string ServiceHealth) !! name) →
            (∀ name service, (name, service) ∈ l →
               res1 !! name = entry_health probe h service) →
            ∀ name, res1 !! name = services g !! name ≫= entry_health probe h).
  { intros res1 l Hl Hout1 Hin1 name.
    destruct (services g !! name) as [service|] eqn:Hname; cbn.
    - apply Hin1. rewrite Hl. by apply elem_of_map_to_list.
    - rewrite Hout1, lookup_empty; [done|].
      intros Hmem. apply list_elem_of_fmap in Hmem as ([name' service] & -> & Hmem).
      rewrite Hl in Hmem. apply elem_of_map_to_list in Hmem. cbn in Hname. congruence. }
  pose proof (Hlookup res entries Hperm Hout Hin) as Hres.
  pose proof (Hlookup res0 _ (reflexivity _) Hout0 Hin0) as Hres0.
  assert (res = res0) as <-.
  { apply map_eq. intros name. by rewrite Hres, Hres0. }
  assert (Hsame : all_healthy probe entries = all_healthy probe (map_to_list (services g))).
  { unfold all_healthy. apply eq_true_iff_eq. rewrite !forallb_forall.
    split; intros Hf x Hx; apply Hf; apply list_elem_of_In; apply list_elem_of_In in Hx.
    - by rewrite Hperm. 
    - by rewrite <- Hperm. }
  eexists. split_and!.
  - unfold HealthCheck_over. rewrite Hfold. cbn [mbind option_bind andb]. reflexivity.
  - unfold HealthCheckHandler, HealthCheck_over. rewrite Hfold0.
    cbn [mbind option_bind andb]. by rewrite Hsame.
  - cbn [status_healthy]. done.
  - cbn [status_healthy health_services]. rewrite Hsame.
    unfold all_healthy. rewrite forallb_forall. split.
    + intros Hf name e Hname. rewrite Hres in Hname.
      destruct (services g !! name) as [service|] eqn:Hsvc; [|done]. cbn in Hname.
      destruct (Hentry name service Hsvc) as (l & cb & _ & _ & He).
      rewrite He in Hname. injection Hname as <-. cbn [healthy].
      apply (Hf (name, service)). apply list_elem_of_In. by apply elem_of_map_to_list.
    + intros Hf [name service] Hmem. apply list_elem_of_In, elem_of_map_to_list in Hmem.
      destruct (Hentry name service Hmem) as (l & cb & _ & _ & He).
      cbn [snd].
      change ((checkServiceHealth probe service).1) with
        (healthy {| healthy := (checkServiceHealth probe service).1;
                    details := (checkServiceHealth probe service).2;
                    circuit_breaker := GetStats cb |}).
      apply (Hf name). rewrite Hres, Hmem. cbn. by rewrite He.
  - cbn [code status_healthy]. by destruct (all_healthy probe entries).
  - done.
  - cbn [health_services]. apply set_eq. intros name. rewrite !elem_of_dom, Hres.
    destruct (services g !! name) as [service|] eqn:Hsvc; cbn.
    + destruct (Hentry name service Hsvc) as (l & cb & _ & _ & ->).
      split; eauto.
    + split; intros [? ?]; done.
  - intros name service Hsvc. cbn [health_services].
    destruct (Hentry name service Hsvc) as (l & cb & Hl & Hcb & He).
    exists l, cb, {| healthy := (checkServiceHealth probe service).1;
                     details := (checkServiceHealth probe service).2;
                     circuit_breaker := GetStats cb |}.
    split_and!; [done|done| |done..].
    rewrite Hres, Hsvc. cbn. by rewrite He.
Qed.

(** Two registered backends, of which only the order service answers its
    probe: the aggregate is unhealthy, the status 503, and both backends
    are in the breakdown. *)
Lemma health_check_aggregates_witness :
  let gh := register_all [unreachable_service; order_service] in
  ∃ resp,
    HealthCheckHandler orders_up gh.1 gh.2 1000 = Some resp
    ∧ status_healthy resp = false
    ∧ code resp = StatusServiceUnavailable
    ∧ dom (health_services resp) = dom (services gh.1).
Proof.
  intros gh.
  destruct (health_check_aggregates orders_up gh.1 gh.2 1000
              (map_to_list (services gh.1)))
    as (resp & _ & H2 & H3 & _ & H5 & _ & H7 & _).
  - subst gh. unfold register_all. cbn [fold_left fst snd].
    apply RegisterService_allocated;
      [apply RegisterService_allocated; [apply breakers_allocated_new|]|];
      intros l Hl; discriminate Hl.
  - reflexivity.
  - exists resp.
    assert (Hs : status_healthy resp = false) by (rewrite H3; vm_compute; reflexivity).
    refine (conj H2 (conj Hs (conj _ H7))).
    rewrite H5, Hs. reflexivity.
Defined.

End GatewayFacts.

(** ** More on the breaker *)

Module BreakerMore.
Import GoInt GoIntFacts Resilience Outcomes BreakerFacts.

Lemma failure_run_snoc outs ok :
  failure_run (outs ++ [ok]) = if ok then O else S (failure_run outs).
Proof. unfold failure_run. by rewrite fold_left_app. Qed.

Section Mixed.
Context {W : Type}.
Implicit Types (fn : @Fn W) (w : W) (calls : list (Obs * @Fn W)).

Lemma Executes_snoc calls o fn cb w :
  Executes (calls ++ [(o, fn)]) cb w =
  let r := Executes calls cb w in
  let '(cb', w', _) := Execute o fn r.1 r.2 in (cb', w').
Proof.
  revert cb w. induction calls as [|[o1 fn1] calls IH]; intros cb w.
  - cbn. by destruct (Execute o fn cb w) as [[cb' w'] e].
  - cbn [app Executes]. destruct (Execute o1 fn1 cb w) as [[cb1 w1] e1]. apply IH.
Qed.

Lemma invoke_all_snoc calls o fn w :
  invoke_all (calls ++ [(o, fn)]) w = (fn (invoke_all calls w)).1.
Proof. unfold invoke_all. by rewrite fold_left_app. Qed.

Lemma onSuccess_closed cb :
  state cb = StateClosed →
  state (onSuccess cb) = StateClosed ∧ failureCount (onSuccess cb) = 0
  ∧ settings (onSuccess cb) = settings cb.
Proof.
  intros Hs. unfold onSuccess. rewrite Hs.
  rewrite bool_decide_eq_false_2, bool_decide_eq_true_2 by done. done.
Qed.

(** X1.  Failures are counted while they follow each other.  A Closed
    breaker with [failureCount = 0] and [MaxFailures = k >= 1] runs calls
    that succeed or fail in any order; as long as the failures since the
    last success stayed below [k] before the last call, every call is
    invoked, [failureCount] is the number of failures since the last
    success, and the breaker is Open exactly if that number has reached
    [k]: failures interrupted by a success never open it. *)
Theorem closed_counts_failure_run outs : ∀ calls cb w,
  state cb = StateClosed →
  failureCount cb = 0 →
  1 ≤ MaxFailures (settings cb) ≤ max_int →
  Forall2 has_outcome outs calls →
  (∀ j, (j < length outs)%nat →
        Z.of_nat (failure_run (take j outs)) < MaxFailures (settings cb)) →
  let r := Executes calls cb w in
  r.2 = invoke_all calls w
  ∧ settings r.1 = settings cb
  ∧ failureCount r.1 = Z.of_nat (failure_run outs)
  ∧ state r.1 = (if MaxFailures (settings cb) <=? Z.of_nat (failure_run outs)
                 then StateOpen else StateClosed).
Proof.
  induction outs as [|ok outs IH] using rev_ind; intros calls cb w Hs Hfc Hk Hout Hrun.
  - apply Forall2_nil_inv_l in Hout as ->. cbn.
    rewrite Hfc. split_and!; [done..|]. by zcases; [lia|].
  - apply Forall2_app_inv_l in Hout as (calls' & last & Hout & Hlast & ->).
    apply Forall2_cons_inv_l in Hlast as ([o fn] & rest & Hok & Hnil & ->).
    apply Forall2_nil_inv_l in Hnil as ->.
    assert (Hpre : Z.of_nat (failure_run outs) < MaxFailures (settings cb)).
    { specialize (Hrun (length outs)). rewrite take_app_length in Hrun.
      apply Hrun. rewrite length_app. cbn. lia. }
    destruct (IH calls' cb w Hs Hfc Hk Hout) as (Hw & Hset & Hcnt & Hst).
    { intros j Hj. specialize (Hrun j). rewrite take_app_le in Hrun by lia.
      apply Hrun. rewrite length_app. cbn. lia. }
    revert Hst. destruct (Z.leb_spec (MaxFailures (settings cb))
                            (Z.of_nat (failure_run outs))); [lia|]. intros Hst.
    rewrite Executes_snoc, invoke_all_snoc, failure_run_snoc. cbv zeta.
    rewrite Execute_not_open by (rewrite Hst; done).
    destruct ok; cbn [has_outcome] in Hok.
    + rewrite (executeClosed_succeeds o fn _ _ Hok). cbn [fst snd].
      destruct (onSuccess_closed _ Hst) as (H1 & H2 & H3).
      rewrite Hw, H1, H2, H3, Hset. split_and!; [done..|].
      by zcases; [lia|].
    + destruct (executeClosed_fails o fn (Executes calls' cb w).1
                  (Executes calls' cb w).2 Hok) as [e ->].
      cbn [fst snd onFailure settings failureCount state].
      rewrite Hw, Hset, Hcnt, Hst, wrap_int_succ by lia.
      split_and!; [done|done|lia|].
      by zcases; lia || done.
Qed.


End Mixed.

(** X2.  Thresholds of 1 and below (zero and negative values included) act
    as 1: with [MaxFailures <= 1] one failure opens a breaker that is
    Closed or HalfOpen, and with [SuccessThreshold <= 1] one success
    closes a HalfOpen breaker, both counters back at 0. *)
Theorem thresholds_below_one cb now :
  MaxFailures (settings cb) ≤ 1 →
  SuccessThreshold (settings cb) ≤ 1 →
  0 ≤ failureCount cb < max_int →
  0 ≤ successCount cb < max_int →
  state (onFailure now cb) = StateOpen
  ∧ (state cb = StateHalfOpen →
     state (onSuccess cb) = StateClosed
     ∧ failureCount (onSuccess cb) = 0
     ∧ successCount (onSuccess cb) = 0).
Proof.
  intros Hmf Hst Hfc Hsc. split.
  - cbn [onFailure state]. rewrite wrap_int_succ by done. by zcases; [|lia].
  - intros Hs. rewrite onSuccess_half_open by done. by zcases; [|lia].
Qed.

(** X3.  [time.Since] saturates at the largest duration and the timeout
    check is strict, so a breaker whose [ResetTimeout] is the largest
    duration never leaves Open: whatever the clock reads, [getState] keeps
    it Open and [Execute] rejects the call without invoking it. *)
Theorem largest_reset_timeout_never_recovers {W : Type} cb o (fn : @Fn W) w :
  state cb = StateOpen →
  max_int ≤ ResetTimeout (settings cb) →
  getState (t_check o) (t_recheck o) cb = (cb, StateOpen)
  ∧ Execute o fn cb w = (cb, w, Some errCircuitOpen).
Proof.
  intros Hs Hrt.
  assert (Hget : getState (t_check o) (t_recheck o) cb = (cb, StateOpen)).
  { apply getState_open_early; [done|].
    unfold time_Since, saturate, min_int, max_int in *. lia. }
  split; [done|]. unfold Execute. by rewrite Hget.
Qed.

(** X4.  The statistics identify the breaker's state and counters: two
    breakers with the same [GetStats] are in the same state, with the same
    counters and the same time of the last failure. *)
Theorem stats_determine_breaker cb1 cb2 :
  GetStats cb1 = GetStats cb2 →
  state cb1 = state cb2
  ∧ failureCount cb1 = failureCount cb2
  ∧ successCount cb1 = successCount cb2
  ∧ lastFailureTime cb1 = lastFailureTime cb2.
Proof.
  unfold GetStats. intros [= Hname Hfc Hsc Hlast]. split_and!; [|done..].
  by destruct (state cb1), (state cb2).
Qed.

End BreakerMore.

(** ** More on the retry loop *)

Module RetryMore.
Import GoInt GoIntFacts Resilience Outcomes.

Lemma after_calls_succ_r {W : Type} (fn : @Fn W) k w :
  after_calls fn (S k) w = after_calls fn k (fn w).1.
Proof. exact (Nat.iter_succ_r k (fun w => (fn w).1) w). Qed.

Section Loop.
Context {W : Type}.
Variable r : Retry.
Variable ctx_done : Z -> option error.
Variable rnd : Z -> float.
Variable fn : @Fn W.

(** [k] retry attempts in a row that wait undisturbed and fail: the loop
    is then at attempt [a + k], with the error of the last call. *)
Lemma Retry_loop_unroll (k : nat) : ∀ a lastErr w sleeps fuel,
  1 ≤ a →
  a + Z.of_nat k ≤ max_int →
  a + Z.of_nat k - 1 ≤ MaxRetries r →
  (∀ i, a ≤ i < a + Z.of_nat k → ctx_done i = None) →
  (∀ i, (i < k)%nat → (fn (after_calls fn i w)).2 ≠ None) →
  Retry_loop r ctx_done rnd fn (k + fuel) a lastErr w sleeps =
  Retry_loop r ctx_done rnd fn fuel (a + Z.of_nat k)
    (match k with O => lastErr | S k' => (fn (after_calls fn k' w)).2 end)
    (after_calls fn k w)
    (sleeps ++ (delay_at r rnd <$> seqZ a (Z.of_nat k))).
Proof.
  induction k as [|k IH]; intros a lastErr w sleeps fuel Ha Hmax Hle Hctx Hfail.
  - cbn. by rewrite Z.add_0_r, app_nil_r.
  - rewrite Nat2Z.inj_succ in *. cbn [Nat.add Retry_loop].
    destruct (Z.leb_spec a (MaxRetries r)); [|lia].
    destruct (Z.ltb_spec 0 a); [|lia].
    rewrite Hctx by lia.
    pose proof (Hfail O ltac:(lia)) as Hfirst. cbn in Hfirst.
    destruct (fn w) as [w1 [e|]] eqn:Hfn; [|done].
    rewrite wrap_int_succ by lia.
    rewrite (IH (a + 1)); [|lia|lia|lia|intros i Hi; apply Hctx; lia|].
    + rewrite after_calls_succ_r, Hfn. cbn [fst].
      rewrite (seqZ_cons a) by lia. rewrite fmap_cons, <- app_assoc. cbn [app].
      replace (Z.pred (Z.succ (Z.of_nat k))) with (Z.of_nat k) by lia.
      replace (a + 1 + Z.of_nat k) with (a + Z.succ (Z.of_nat k)) by lia.
      f_equal. destruct k as [|k']; [by cbn; rewrite Hfn|].
      by rewrite (after_calls_succ_r fn k'), Hfn.
    + intros i Hi. specialize (Hfail (S i) ltac:(lia)).
      by rewrite after_calls_succ_r, Hfn in Hfail.
Qed.

(** The first iteration: no wait before attempt 0. *)
Lemma Retry_Execute_first fuel w :
  0 ≤ MaxRetries r →
  Retry_Execute r ctx_done rnd fn (S fuel) w =
  match (fn w).2 with
  | Some e => Retry_loop r ctx_done rnd fn fuel 1 (Some e) (fn w).1 []
  | None => Some {| run_world := (fn w).1; run_sleeps := []; run_result := None |}
  end.
Proof.
  intros Hm. unfold Retry_Execute. cbn [Retry_loop].
  destruct (Z.leb_spec 0 (MaxRetries r)); [|lia].
  cbn [Z.ltb Z.compare]. by destruct (fn w) as [w1 [e|]].
Qed.

(** X6.  When every call fails and the context is never done, [fn] is
    invoked [MaxRetries + 1] times, the loop sleeps [calculateDelay n]
    before each retry attempt [n], and the result is the error of the last
    call, not of an earlier one. *)
Theorem exhausted_returns_last_error fuel w :
  0 ≤ MaxRetries r < max_int →
  (∀ i, ctx_done i = None) →
  (∀ w, (fn w).2 ≠ None) →
  (Z.to_nat (MaxRetries r) + 2 ≤ fuel)%nat →
  Retry_Execute r ctx_done rnd fn fuel w =
  Some {| run_world := after_calls fn (S (Z.to_nat (MaxRetries r))) w;
          run_sleeps := delay_at r rnd <$> seqZ 1 (MaxRetries r);
          run_result := (fn (after_calls fn (Z.to_nat (MaxRetries r)) w)).2 |}.
Proof.
  intros Hm Hctx Hfail Hfuel.
  destruct fuel as [|fuel]; [lia|]. rewrite Retry_Execute_first by lia.
  pose proof (Hfail w) as Hfirst. destruct (fn w) as [w1 [e|]] eqn:Hfn; [|done].
  cbn [fst snd].
  replace fuel with (Z.to_nat (MaxRetries r) + (fuel - Z.to_nat (MaxRetries r)))%nat by lia.
  rewrite Retry_loop_unroll; [|lia|lia|lia|done|done].
  rewrite Z2Nat.id by lia.
  destruct (fuel - Z.to_nat (MaxRetries r))%nat as [|fuel'] eqn:Hf; [lia|].
  cbn [Retry_loop]. destruct (Z.leb_spec (1 + MaxRetries r) (MaxRetries r)); [lia|].
  rewrite after_calls_succ_r, Hfn. cbn [fst app]. do 2 f_equal.
  destruct (Z.to_nat (MaxRetries r)) as [|m]; [by cbn; rewrite Hfn|].
  by rewrite after_calls_succ_r, Hfn.
Qed.

(** X7.  When the first [j] calls fail and the next one succeeds, with
    [j <= MaxRetries], [Execute] returns [nil] after [j + 1] invocations
    and has slept the delays of retry attempts 1 to [j]; no further call
    and no further wait follows the success. *)
Theorem succeeds_after_failures (j : nat) fuel w :
  Z.of_nat j ≤ MaxRetries r ≤ max_int →
  (∀ i, 1 ≤ i ≤ Z.of_nat j → ctx_done i = None) →
  (∀ i, (i < j)%nat → (fn (after_calls fn i w)).2 ≠ None) →
  (fn (after_calls fn j w)).2 = None →
  (j + 1 ≤ fuel)%nat →
  Retry_Execute r ctx_done rnd fn fuel w =
  Some {| run_world := after_calls fn (S j) w;
          run_sleeps := delay_at r rnd <$> seqZ 1 (Z.of_nat j);
          run_result := None |}.
Proof.
  intros Hj Hctx Hfail Hok Hfuel.
  destruct fuel as [|fuel]; [lia|]. rewrite Retry_Execute_first by lia.
  destruct j as [|j].
  - cbn in Hok. rewrite Hok. done.
  - pose proof (Hfail O ltac:(lia)) as Hfirst. cbn in Hfirst.
    destruct (fn w) as [w1 [e|]] eqn:Hfn; [|done]. cbn [fst snd].
    rewrite Nat2Z.inj_succ in *.
    replace fuel with (j + (fuel - j))%nat by lia.
    rewrite Retry_loop_unroll; [|lia|lia|lia|intros i Hi; apply Hctx; lia|].
    2:{ intros i Hi. specialize (Hfail (S i) ltac:(lia)).
        by rewrite after_calls_succ_r, Hfn in Hfail. }
    destruct (fuel - j)%nat as [|fuel'] eqn:Hf; [lia|].
    cbn [Retry_loop].
    destruct (Z.leb_spec (1 + Z.of_nat j) (MaxRetries r)); [|lia].
    destruct (Z.ltb_spec 0 (1 + Z.of_nat j)); [|lia].
    rewrite Hctx by lia.
    rewrite after_calls_succ_r, Hfn in Hok. cbn [fst] in Hok.
    rewrite (after_calls_succ_r fn (S j)), Hfn. cbn [fst].
    change (after_calls fn (S j) w1) with ((fn (after_calls fn j w1)).1).
    destruct (fn (after_calls fn j w1)) as [w2 [e2|]]; [done|]. cbn [fst app].
    do 2 f_equal.
    replace (Z.succ (Z.of_nat j)) with (Z.of_nat j + 1) by lia.
    rewrite (seqZ_app 1 (Z.of_nat j) 1) by lia.
    by rewrite fmap_app.
Qed.

(** X8.  The wait is cancellable.  When every call fails and the context
    is done during the wait before retry attempt [n] (and not before),
    [Execute] returns the context's error at once: [fn] was invoked [n]
    times, attempt [n] is not made, and only the [n - 1] earlier waits
    were slept through. *)
Theorem cancelled_during_wait (n : nat) e fuel w :
  1 ≤ Z.of_nat n ≤ MaxRetries r ≤ max_int →
  (∀ i, 1 ≤ i < Z.of_nat n → ctx_done i = None) →
  ctx_done (Z.of_nat n) = Some e →
  (∀ i, (i < n)%nat → (fn (after_calls fn i w)).2 ≠ None) →
  (n + 1 ≤ fuel)%nat →
  Retry_Execute r ctx_done rnd fn fuel w =
  Some {| run_world := after_calls fn n w;
          run_sleeps := delay_at r rnd <$> seqZ 1 (Z.of_nat n - 1);
          run_result := Some e |}.
Proof.
  intros Hn Hctx Hdone Hfail Hfuel.
  destruct fuel as [|fuel]; [lia|]. rewrite Retry_Execute_first by lia.
  destruct n as [|n]; [cbn in Hn; lia|].
  pose proof (Hfail O ltac:(lia)) as Hfirst. cbn in Hfirst.
  destruct (fn w) as [w1 [e0|]] eqn:Hfn; [|done]. cbn [fst snd].
  rewrite Nat2Z.inj_succ in *.
  replace fuel with (n + (fuel - n))%nat by lia.
  rewrite Retry_loop_unroll; [|lia|lia|lia|intros i Hi; apply Hctx; lia|].
  2:{ intros i Hi. specialize (Hfail (S i) ltac:(lia)).
      by rewrite after_calls_succ_r, Hfn in Hfail. }
  destruct (fuel - n)%nat as [|fuel'] eqn:Hf; [lia|].
  cbn [Retry_loop].
  destruct (Z.leb_spec (1 + Z.of_nat n) (MaxRetries r)); [|lia].
  destruct (Z.ltb_spec 0 (1 + Z.of_nat n)); [|lia].
  replace (1 + Z.of_nat n) with (Z.succ (Z.of_nat n)) by lia. rewrite Hdone.
  rewrite after_calls_succ_r, Hfn. cbn [fst app].
  replace (Z.succ (Z.of_nat n) - 1) with (Z.of_nat n) by lia. done.
Qed.

(** X9.  A negative [MaxRetries] makes [Execute] return [nil] without a
    single call of [fn] and without waiting. *)
Theorem negative_retries_never_call fuel w :
  MaxRetries r < 0 →
  (1 ≤ fuel)%nat →
  Retry_Execute r ctx_done rnd fn fuel w =
  Some {| run_world := w; run_sleeps := []; run_result := None |}.
Proof.
  intros Hm Hfuel. destruct fuel as [|fuel]; [lia|].
  unfold Retry_Execute. cbn [Retry_loop].
  by destruct (Z.leb_spec 0 (MaxRetries r)); [lia|].
Qed.

End Loop.

(** X10.  Without jitter no delay is longer than [MaxDelay], whatever the
    attempt, the base delay and the multiplier. *)
Theorem delay_capped r rnd attempt :
  Jitter r = false →
  calculateDelay r rnd attempt ≤ MaxDelay r.
Proof.
  intros Hj. unfold calculateDelay. rewrite Hj.
  by zcases; [|lia].
Qed.

End RetryMore.

(** ** More on the gateway *)

Module GatewayMore.
Import GoInt GoIntFacts Resilience Proxy Dispatching BreakerFacts GatewayFacts.

Section Dispatch.
Variable url_Parse : string -> option error.

(** [ProxyHandler] on a registered service: [Execute] on its breaker, the
    breaker written back, and the handler's own answer after an error. *)
Lemma ProxyHandler_registered name o rt g h service l cb :
  services g !! name = Some service →
  CircuitBreaker service = Some l →
  h !! l = Some cb →
  ProxyHandler url_Parse name o rt g h =
    let r := Execute o (proxyRequest url_Parse rt service) cb [] in
    Some (<[l := r.1.1]> h,
          r.1.2 ++ match r.2 with
                   | Some e => if decide (e = errCircuitOpen)
                               then [unavailable name] else [bad_gateway name]
                   | None => []
                   end).
Proof.
  intros Hname Hl Hcb. unfold ProxyHandler.
  rewrite Hname, Hl. cbn [mbind option_bind]. rewrite Hcb. cbn [mbind option_bind].
  destruct (Execute o (proxyRequest url_Parse rt service) cb []) as [[cb' w] [e|]];
    cbn [fst snd]; [by case_decide|by rewrite app_nil_r].
Qed.


Lemma unknown_service_is_404_aux name o rt g h :
  services g !! name = None →
  ProxyHandler url_Parse name o rt g h =
    Some (h, [ {| w_status := StatusNotFound;
                  w_body := JSON [("error", "Service not found")] |} ]).
Proof. intros Hname. unfold ProxyHandler. by rewrite Hname. Qed.

(** X11.  A name that is not registered is answered 404 with the error
    "Service not found"; no breaker is touched and no round trip is made
    (heap and answer are the same whatever the backend would do). *)
Theorem unknown_service_is_404 name o rt g h :
  services g !! name = None →
  ProxyHandler url_Parse name o rt g h =
    Some (h, [ {| w_status := StatusNotFound;
                  w_body := JSON [("error", "Service not found")] |} ]).
Proof. intros Hname. unfold ProxyHandler. by rewrite Hname. Qed.

(** X12.  While the breaker of a service is Open and its reset timeout has
    not elapsed, a request for the service is answered 503 with the name
    of the service, nothing else is written, the heap is left as it was,
    and neither the URL nor the backend is consulted. *)
Theorem open_breaker_is_503 name o rt g h service l cb :
  services g !! name = Some service →
  CircuitBreaker service = Some l →
  h !! l = Some cb →
  state cb = StateOpen →
  time_Since (t_check o) (lastFailureTime cb) ≤ ResetTimeout (settings cb) →
  ProxyHandler url_Parse name o rt g h = Some (h, [unavailable name]).
Proof.
  intros Hname Hl Hcb Hs Hearly.
  rewrite (ProxyHandler_registered _ _ _ _ _ _ _ _ Hname Hl Hcb). cbv zeta.
  unfold Execute. rewrite getState_open_early by done. cbn [fst snd app].
  rewrite decide_True by done. by rewrite insert_id.
Qed.

(** X13.  A response of the backend is passed through whatever its
    status, and it is a success for the breaker: on a breaker that is not
    Open, with a URL that parses and the proxy done before the breaker's
    deadline, the client receives the backend's status and body and
    nothing else, and the breaker records [onSuccess]; a Closed breaker
    stays Closed with [failureCount] at 0, also after a 500. *)
Theorem backend_status_passes_through name o status payload g h service l cb :
  services g !! name = Some service →
  CircuitBreaker service = Some l →
  h !! l = Some cb →
  url_Parse (URL service) = None →
  pick o = SelDone →
  state cb ≠ StateOpen →
  ProxyHandler url_Parse name o (Responded status payload) g h =
    Some (<[l := onSuccess cb]> h,
          [ {| w_status := status; w_body := Upstream payload |} ])
  ∧ (state cb = StateClosed →
     state (onSuccess cb) = StateClosed ∧ failureCount (onSuccess cb) = 0).
Proof.
  intros Hname Hl Hcb Hurl Hpick Hs. split.
  - rewrite (ProxyHandler_registered _ _ _ _ _ _ _ _ Hname Hl Hcb). cbv zeta.
    rewrite Execute_not_open by done.
    unfold executeClosed, executeWithTimeout, proxyRequest.
    by rewrite Hurl, Hpick.
  - intros Hc. by destruct (BreakerMore.onSuccess_closed cb Hc) as (? & ? & _).
Qed.



(** X15.  A request changes at most the breaker of the service it is for.
    For an unknown name the heap is unchanged; for a registered one every
    other cell of the heap is unchanged; and when no two names share a
    breaker, the breaker of every other service is exactly as before. *)
Theorem dispatch_touches_one_breaker name o rt g h h' w :
  ProxyHandler url_Parse name o rt g h = Some (h', w) →
  (services g !! name = None → h' = h)
  ∧ (∀ service l, services g !! name = Some service →
       CircuitBreaker service = Some l →
       ∀ l', l' ≠ l → h' !! l' = h !! l')
  ∧ (breakers_distinct g →
     ∀ other, other ≠ name → breaker_of g h' other = breaker_of g h other).
Proof.
  intros Hrun.
  assert (Hcells : ∀ service l, services g !! name = Some service →
            CircuitBreaker service = Some l → ∀ l', l' ≠ l → h' !! l' = h !! l').
  { intros service l Hname Hl l' Hne.
    destruct (h !! l) as [cb|] eqn:Hcb.
    - rewrite (ProxyHandler_registered _ _ _ _ _ _ _ _ Hname Hl Hcb) in Hrun.
      injection Hrun as <- _. by rewrite lookup_insert_ne.
    - unfold ProxyHandler in Hrun. rewrite Hname, Hl in Hrun.
      cbn [mbind option_bind] in Hrun. by rewrite Hcb in Hrun. }
  split_and!; [|done|].
  - intros Hname. rewrite unknown_service_is_404_aux in Hrun by done. congruence.
  - intros Hdist other Hne. unfold breaker_of.
    destruct (services g !! other) as [service'|] eqn:Hother; [|done]. cbn.
    destruct (CircuitBreaker service') as [l'|] eqn:Hl'; [|done]. cbn.
    destruct (services g !! name) as [service|] eqn:Hname.
    + destruct (CircuitBreaker service) as [l|] eqn:Hl.
      * apply (Hcells service l eq_refl Hl). intros ->.
        apply (Hdist other name service' service Hne Hother Hname). congruence.
      * unfold ProxyHandler in Hrun. rewrite Hname, Hl in Hrun. done.
    + unfold ProxyHandler in Hrun. rewrite Hname in Hrun. congruence.
Qed.

End Dispatch.

(** *** Registration and breakers *)

(** X16.  A service registered without a breaker gets one of its own.  In
    a store where every registered name has its breaker in the heap and
    no two names share one, [RegisterService] of a configuration with a
    [nil] breaker keeps both properties, gives the name a new default
    breaker (Closed, no failure counted), and leaves the breaker of every
    other name as it was. *)
Theorem register_gives_own_breaker service g h :
  CircuitBreaker service = None →
  breakers_allocated g h →
  breakers_distinct g →
  let g' := (RegisterService service g h).1 in
  let h' := (RegisterService service g h).2 in
  breakers_allocated g' h'
  ∧ breakers_distinct g'
  ∧ breaker_of g' h' (Name service) = Some (NewCircuitBreaker DefaultSettings)
  ∧ ∀ other, other ≠ Name service → breaker_of g' h' other = breaker_of g h other.
Proof.
  intros Hnil Halloc Hdist g' h'. subst g' h'.
  destruct (RegisterService_store service g h)
    as (l & service' & Hmap & Hl & _ & _ & [[Hs _]|(_ & Hfresh & Hheap)]); [congruence|].
  assert (Hold : ∀ name s, services g !! name = Some s → CircuitBreaker s ≠ Some l).
  { intros name s Hname Hp. destruct (Halloc name s Hname) as (l' & cb & H1 & H2).
    congruence. }
  split_and!.
  - apply RegisterService_allocated; [done|]. intros l0 Hl0. congruence.
  - intros name1 name2 s1 s2 Hne H1 H2. rewrite Hmap in H1, H2.
    destruct (decide (name1 = Name service)) as [->|Hn1];
      destruct (decide (name2 = Name service)) as [->|Hn2]; [done|..].
    + rewrite lookup_insert_eq in H1. rewrite lookup_insert_ne in H2 by done.
      injection H1 as <-. rewrite Hl. intros Heq. by apply (Hold name2 s2).
    + rewrite lookup_insert_eq in H2. rewrite lookup_insert_ne in H1 by done.
      injection H2 as <-. rewrite Hl. by apply (Hold name1 s1).
    + rewrite lookup_insert_ne in H1, H2 by done. by apply (Hdist name1 name2).
  - unfold breaker_of. rewrite Hmap, lookup_insert_eq. cbn. rewrite Hl. cbn.
    by rewrite Hheap, lookup_insert_eq.
  - intros other Hne. unfold breaker_of. rewrite Hmap, lookup_insert_ne by done.
    destruct (services g !! other) as [s|] eqn:Hother; [|done]. cbn.
    destruct (CircuitBreaker s) as [l'|] eqn:Hl'; [|done]. cbn.
    rewrite Hheap, lookup_insert_ne; [done|]. intros <-. by apply (Hold other s).
Qed.

(** *** The health check *)

(** The handler answers on every store whose breakers are allocated, with
    the conjunction of the checks over the entries of the map. *)
Lemma HealthCheckHandler_summary probe g h now :
  breakers_allocated g h →
  ∃ resp,
    HealthCheckHandler probe g h now = Some resp
    ∧ status_healthy resp = all_healthy probe (map_to_list (services g))
    ∧ code resp = (if status_healthy resp then StatusOK else StatusServiceUnavailable).
Proof.
  intros Halloc.
  destruct (health_fold probe h (map_to_list (services g)) ∅ true)
    as (res & Hfold & _ & _).
  { apply Forall_forall. intros [name service] Hin.
    apply elem_of_map_to_list in Hin.
    destruct (Halloc name service Hin) as (l & cb & Hl & Hcb).
    unfold entry_health. cbn [snd]. rewrite Hl. cbn. rewrite Hcb. cbn. eauto. }
  unfold HealthCheckHandler, HealthCheck_over. rewrite Hfold.
  cbn [mbind option_bind andb]. eexists. split_and!; [reflexivity|done|].
  cbn [code status_healthy]. by destruct (all_healthy _ _).
Qed.

(** X18.  Without health paths there is nothing to probe: when no
    registered backend has a health path (and in particular when no
    backend is registered), the aggregate is healthy and the status 200,
    whatever the probes would answer. *)
Theorem no_health_path_is_healthy probe g h now :
  breakers_allocated g h →
  (∀ name service, services g !! name = Some service → HealthPath service = "") →
  ∃ resp,
    HealthCheckHandler probe g h now = Some resp
    ∧ status_healthy resp = true
    ∧ code resp = StatusOK.
Proof.
  intros Halloc Hpaths.
  destruct (HealthCheckHandler_summary probe g h now Halloc) as (resp & Hrun & Hs & Hc).
  assert (Hall : status_healthy resp = true).
  { rewrite Hs. unfold all_healthy. apply forallb_forall. intros [name service] Hin.
    apply list_elem_of_In, elem_of_map_to_list in Hin.
    cbn [snd]. unfold checkServiceHealth.
    by rewrite decide_True by (by apply (Hpaths name)). }
  exists resp. rewrite Hc, Hall. done.
Qed.

End GatewayMore.

(** ** The address of the health probe *)

Module HealthURLFacts.
Import Proxy Dispatching.

Local Abbreviation slen := Strings.String.length.
Local Abbreviation substring := Strings.String.substring.

Lemma app_empty_l (p : string) : "" +:+ p = p.
Proof. reflexivity. Qed.

Lemma app_cons_l c (s p : string) :
  Strings.String.String c s +:+ p = Strings.String.String c (s +:+ p).
Proof. reflexivity. Qed.

Lemma length_app_string (s p : string) : slen (s +:+ p) = (slen s + slen p)%nat.
Proof.
  induction s as [|c s IH]; rewrite ?app_empty_l, ?app_cons_l; cbn; [done|by rewrite IH].
Qed.

Lemma substring_all (s : string) : substring 0 (slen s) s = s.
Proof. induction s as [|c s IH]; cbn; [done|by rewrite IH]. Qed.

Lemma substring_app_l (s p : string) : substring 0 (slen s) (s +:+ p) = s.
Proof.
  induction s as [|c s IH]; rewrite ?app_empty_l, ?app_cons_l; cbn;
    [by destruct p|by rewrite IH].
Qed.

Lemma substring_app_r (s p : string) : substring (slen s) (slen p) (s +:+ p) = p.
Proof.
  induction s as [|c s IH]; rewrite ?app_empty_l, ?app_cons_l; cbn;
    [apply substring_all|done].
Qed.

Lemma substring_skip (s p : string) n : substring (slen s) n (s +:+ p) = substring 0 n p.
Proof. induction s as [|c s IH]; rewrite ?app_empty_l, ?app_cons_l; cbn; done. Qed.

Lemma substring_split (s : string) : ∀ m,
  (m ≤ slen s)%nat → substring 0 m s +:+ substring m (slen s - m) s = s.
Proof.
  induction s as [|c s IH]; intros m Hm.
  - cbn in Hm. by replace m with 0%nat by lia.
  - destruct m as [|m]; cbn.
    + by rewrite app_empty_l, substring_all.
    + rewrite app_cons_l, IH; [done|]. cbn in Hm. lia.
Qed.

Lemma prefix_app (p s : string) : Strings.String.prefix p (p +:+ s) = true.
Proof.
  induction p as [|c p IH]; rewrite ?app_empty_l, ?app_cons_l; cbn; [by destruct s|].
  destruct (Ascii.ascii_dec c c); [done|congruence].
Qed.

(** Trimming undoes appending and prepending. *)
Lemma TrimSuffix_app (s p : string) : TrimSuffix (s +:+ p) p = s.
Proof.
  unfold TrimSuffix. rewrite length_app_string.
  replace (slen s + slen p - slen p)%nat with (slen s) by lia.
  rewrite substring_app_r, Strings.String.eqb_refl, substring_app_l.
  by destruct (slen p <=? slen s + slen p)%nat eqn:Hle; [|apply Nat.leb_gt in Hle; lia].
Qed.

Lemma TrimPrefix_app (s p : string) : TrimPrefix (p +:+ s) p = s.
Proof.
  unfold TrimPrefix. rewrite prefix_app, length_app_string.
  replace (slen p + slen s - slen p)%nat with (slen s) by lia.
  rewrite substring_skip. apply substring_all.
Qed.

(** Trimming changes only a string that ends, or starts, with the part to
    trim. *)
Lemma TrimSuffix_id (s p : string) : (∀ v, s ≠ v +:+ p) → TrimSuffix s p = s.
Proof.
  intros Hno. unfold TrimSuffix.
  destruct (slen p <=? slen s)%nat eqn:Hle; [|done]. apply Nat.leb_le in Hle.
  destruct (Strings.String.eqb_spec (substring (slen s - slen p) (slen p) s) p)
    as [Heq|Hne]; [|done].
  exfalso. apply (Hno (substring 0 (slen s - slen p) s)).
  pose proof (substring_split s (slen s - slen p) ltac:(lia)) as Hsplit.
  replace (slen s - (slen s - slen p))%nat with (slen p) in Hsplit by lia.
  by rewrite Heq in Hsplit.
Qed.

Lemma TrimPrefix_id (s p : string) : (∀ v, s ≠ p +:+ v) → TrimPrefix s p = s.
Proof.
  intros Hno. unfold TrimPrefix.
  destruct (Strings.String.prefix p s) eqn:Hpre; [|done].
  apply Strings.String.prefix_correct in Hpre.
  assert (Hle : (slen p ≤ slen s)%nat).
  { destruct (Nat.le_gt_cases (slen p) (slen s)) as [|Hgt]; [done|].
    exfalso.
    assert (Hlen : slen (substring 0 (slen p) s) = slen p) by (by rewrite Hpre).
    revert Hlen Hgt. clear. generalize (slen p). intros n.
    revert n. induction s as [|c s IH]; intros [|n]; cbn; intros; try lia.
    apply (IH n); lia. }
  exfalso. apply (Hno (substring (slen p) (slen s - slen p) s)).
  pose proof (substring_split s (slen p) Hle) as Hsplit.
  by rewrite Hpre in Hsplit.
Qed.

(** X17.  The probed address has exactly one slash between base address
    and health path.  For a base [u] without a trailing slash and a path
    [p], not empty and without a leading slash: whether the configuration
    gives the URL as [u] or [u/] and the health path as [p] or [/p], the
    address probed is [u/p], and so two such configurations get the same
    health result. *)
Theorem health_url_ignores_slashes probe (u p : string) service1 service2 :
  (∀ v, u ≠ v +:+ "/") →
  (∀ v, p ≠ "/" +:+ v) →
  p ≠ "" →
  (URL service1 = u ∨ URL service1 = u +:+ "/") →
  (HealthPath service1 = p ∨ HealthPath service1 = "/" +:+ p) →
  (URL service2 = u ∨ URL service2 = u +:+ "/") →
  (HealthPath service2 = p ∨ HealthPath service2 = "/" +:+ p) →
  healthURL service1 = u +:+ "/" +:+ p
  ∧ healthURL service2 = u +:+ "/" +:+ p
  ∧ checkServiceHealth probe service1 = checkServiceHealth probe service2.
Proof.
  intros Hu Hp Hne Hu1 Hp1 Hu2 Hp2.
  assert (Hurl : ∀ service,
            (URL service = u ∨ URL service = u +:+ "/") →
            (HealthPath service = p ∨ HealthPath service = "/" +:+ p) →
            healthURL service = u +:+ "/" +:+ p ∧ HealthPath service ≠ "").
  { intros service Hus Hps. unfold healthURL.
    destruct Hus as [-> | ->], Hps as [-> | ->];
      rewrite ?TrimSuffix_app, ?TrimPrefix_app, ?(TrimSuffix_id u), ?(TrimPrefix_id p)
        by done;
      (split; [done|]); rewrite ?app_cons_l; done. }
  destruct (Hurl service1 Hu1 Hp1) as [H1 Hn1].
  destruct (Hurl service2 Hu2 Hp2) as [H2 Hn2].
  split_and!; [done..|].
  unfold checkServiceHealth. rewrite !decide_False by done.
  change (TrimSuffix (URL service1) "/" +:+ "/" +:+ TrimPrefix (HealthPath service1) "/")
    with (healthURL service1).
  change (TrimSuffix (URL service2) "/" +:+ "/" +:+ TrimPrefix (HealthPath service2) "/")
    with (healthURL service2).
  by rewrite H1, H2.
Qed.

End HealthURLFacts.

(** ** The round-robin balancer *)

Module BalancerFacts.
Import GoInt GoIntFacts Proxy Dispatching.

Lemma SelectService_step services rb :
  services ≠ [] →
  0 ≤ current rb < max_int →
  ∃ service,
    services !! Z.to_nat (current rb `mod` Z.of_nat (length services)) = Some service
    ∧ SelectService services rb
        = ({| current := current rb + 1 |}, Selected service).
Proof.
  intros Hne Hc. unfold SelectService.
  assert (Hlen : 0 < Z.of_nat (length services)) by (destruct services; [done|cbn; lia]).
  rewrite decide_False by (intros H; apply length_zero_iff_nil in H; done).
  rewrite Z.rem_mod_nonneg by lia.
  pose proof (Z.mod_pos_bound (current rb) (Z.of_nat (length services)) Hlen) as Hm.
  destruct (Z.ltb_spec (current rb `mod` Z.of_nat (length services)) 0); [lia|].
  destruct (lookup_lt_is_Some_2 services
              (Z.to_nat (current rb `mod` Z.of_nat (length services)))) as [s Hs]; [lia|].
  exists s. by rewrite Hs, wrap_int_succ.
Qed.

(** X20.  Round robin.  On a list of [n > 0] services, with a counter that
    is not negative and does not wrap during the calls, the [i]-th of [k]
    calls in a row returns the service at index [(current + i) mod n] and
    the counter advances by [k]: from a counter that is a multiple of [n],
    [n] calls return the services of the list in order, each once. *)
Theorem round_robin_rotates services (k : nat) : ∀ rb,
  services ≠ [] →
  0 ≤ current rb →
  current rb + Z.of_nat k ≤ max_int →
  let r := SelectServices k services rb in
  let n := Z.of_nat (length services) in
  current r.1 = current rb + Z.of_nat k
  ∧ length r.2 = k
  ∧ (∀ i, (i < k)%nat →
       r.2 !! i = Selected <$> services !! Z.to_nat ((current rb + Z.of_nat i) `mod` n))
  ∧ (current rb `mod` n = 0 → k = length services → r.2 = Selected <$> services).
Proof.
  intros rb Hne Hc Hmax r n.
  assert (Hgen : ∀ k rb, 0 ≤ current rb → current rb + Z.of_nat k ≤ max_int →
            current (SelectServices k services rb).1 = current rb + Z.of_nat k
            ∧ length (SelectServices k services rb).2 = k
            ∧ ∀ i, (i < k)%nat →
                (SelectServices k services rb).2 !! i
                = Selected <$> services !! Z.to_nat ((current rb + Z.of_nat i) `mod` n)).
  { clear k rb Hc Hmax r. intros k. induction k as [|k IH]; intros rb Hc Hmax.
    - cbn. split_and!; [lia|done|]. intros i Hi. lia.
    - cbn [SelectServices].
      destruct (SelectService_step services rb Hne) as (s & Hs & ->); [lia|].
      specialize (IH {| current := current rb + 1 |}). cbn [current] in IH.
      destruct (SelectServices k services {| current := current rb + 1 |})
        as [rb2 ss].
      cbn [fst snd] in *. destruct IH as (H1 & H2 & H3); [lia|lia|].
      split_and!; [lia|by cbn; rewrite H2|].
      intros [|i] Hi.
      + transitivity (Some (Selected s)); [done|].
        rewrite Z.add_0_r. fold n in Hs. by rewrite Hs.
      + transitivity (ss !! i); [done|].
        rewrite (H3 i) by lia.
        by replace (current rb + Z.of_nat (S i)) with (current rb + 1 + Z.of_nat i) by lia. }
  destruct (Hgen k rb Hc Hmax) as (H1 & H2 & H3). fold r in H1, H2, H3.
  split_and!; [done..|].
  intros Hmod Hk. apply list_eq. intros i.
  destruct (decide (i < k)%nat) as [Hi|Hi].
  - rewrite (H3 i Hi).
    replace (Z.to_nat ((current rb + Z.of_nat i) `mod` n)) with i;
      [by rewrite list_lookup_fmap|].
    rewrite Z.add_mod, Hmod, Z.add_0_l, Z.mod_mod by (subst n; lia).
    rewrite Z.mod_small by (subst n; lia). lia.
  - rewrite !lookup_ge_None_2; [done| |lia]. rewrite length_fmap. lia.
Qed.

(** X21.  After the counter has wrapped the balancer panics.  When the
    counter is at the largest integer, the next call still returns a
    service and leaves the counter at the smallest integer; unless the
    number of services divides it, every call from then on indexes the
    list with a negative number, which is a run-time panic, and the counter
    stays where it is. *)
Theorem round_robin_panics_after_wrap services rb :
  services ≠ [] →
  current rb = max_int →
  Z.rem min_int (Z.of_nat (length services)) ≠ 0 →
  let r := SelectService services rb in
  (∃ service, r.2 = Selected service)
  ∧ current r.1 = min_int
  ∧ SelectService services r.1 = (r.1, IndexOutOfRange).
Proof.
  intros Hne Hc Hrem r. subst r.
  assert (Hlen : 0 < Z.of_nat (length services)) by (destruct services; [done|cbn; lia]).
  assert (Hfirst : ∃ service, SelectService services rb
                     = ({| current := min_int |}, Selected service)).
  { unfold SelectService.
    rewrite decide_False by (intros H; apply length_zero_iff_nil in H; done).
    rewrite Hc, Z.rem_mod_nonneg by (unfold max_int; lia).
    pose proof (Z.mod_pos_bound max_int (Z.of_nat (length services)) Hlen) as Hm.
    destruct (Z.ltb_spec (max_int `mod` Z.of_nat (length services)) 0); [lia|].
    destruct (lookup_lt_is_Some_2 services
                (Z.to_nat (max_int `mod` Z.of_nat (length services)))) as [s Hs]; [lia|].
    exists s. by rewrite Hs. }
  destruct Hfirst as [service ->]. cbn [fst snd current].
  split_and!; [eauto|done|].
  unfold SelectService. cbn [current].
  rewrite decide_False by (intros H; apply length_zero_iff_nil in H; done).
  pose proof (Z.rem_nonpos min_int (Z.of_nat (length services))) as Hsign.
  destruct (Z.ltb_spec (Z.rem min_int (Z.of_nat (length services))) 0); [done|].
  exfalso. apply Hrem. assert (Z.rem min_int (Z.of_nat (length services)) ≤ 0).
  { apply Hsign; [lia|unfold min_int; lia]. }
  lia.
Qed.

End BalancerFacts.

(** ** The gateway's main package *)

Module MainFacts.
Import GoInt Resilience Proxy Dispatching Main.

(** The names [setupGateway] registers. *)
Lemma routes_name_registered :
  Forall (fun route => route.2 ∈ ["user-service"; "order-service"; "product-service";
                                  "payment-service"; "notification-service"])
         routes.
Proof.
  apply Forall_forall. intros route Hin.
  assert (Hb : forallb (fun route =>
                 bool_decide (route.2 ∈ ["user-service"; "order-service";
                                         "product-service"; "payment-service";
                                         "notification-service"])) routes = true)
    by (vm_compute; reflexivity).
  rewrite forallb_forall in Hb.
  pose proof (Hb route ltac:(by apply list_elem_of_In)) as Hroute.
  by apply bool_decide_eq_true in Hroute.
Qed.

(** Where the entry of a name is, in a map built by inserts. *)
Ltac split_lookup H :=
  repeat (apply lookup_insert_Some in H as [[<- <-]|[? H]]);
  try (by rewrite lookup_empty in H).

(** X22.  Every route has its backend.  Whatever the configuration and
    the heap before, [setupGateway] registers exactly the five services,
    each with a breaker of its own that is Closed with nothing counted
    and the default settings, and keeps what the heap held; every name
    that a route of [setupAPIRoutes] hands to [ProxyHandler] is one of
    them, so no route can be answered "Service not found". *)
Theorem routes_reach_registered_services cfg h :
  let gh := setupGateway cfg h in
  dom (services gh.1) =
    {[ "user-service"; "order-service"; "product-service";
       "payment-service"; "notification-service" ]}
  ∧ (∀ method path name, (method, path, name) ∈ routes →
       breaker_of gh.1 gh.2 name = Some (NewCircuitBreaker DefaultSettings))
  ∧ breakers_allocated gh.1 gh.2
  ∧ breakers_distinct gh.1
  ∧ (∀ l cb, h !! l = Some cb → gh.2 !! l = Some cb).
Proof.
  intros gh. subst gh. unfold setupGateway, new_breaker.
  set (l1 := fresh (dom h)).
  set (h1 := <[l1 := _]> h).
  set (l2 := fresh (dom h1)). set (h2 := <[l2 := _]> h1).
  set (l3 := fresh (dom h2)). set (h3 := <[l3 := _]> h2).
  set (l4 := fresh (dom h3)). set (h4 := <[l4 := _]> h3).
  set (l5 := fresh (dom h4)). set (h5 := <[l5 := _]> h4).
  assert (Hf1 : l1 ∉ dom h) by apply is_fresh.
  assert (Hf2 : l2 ∉ dom h1) by apply is_fresh.
  assert (Hf3 : l3 ∉ dom h2) by apply is_fresh.
  assert (Hf4 : l4 ∉ dom h3) by apply is_fresh.
  assert (Hf5 : l5 ∉ dom h4) by apply is_fresh.
  assert (Hd1 : dom h1 = {[l1]} ∪ dom h) by apply dom_insert_L.
  assert (Hd2 : dom h2 = {[l2]} ∪ dom h1) by apply dom_insert_L.
  assert (Hd3 : dom h3 = {[l3]} ∪ dom h2) by apply dom_insert_L.
  assert (Hd4 : dom h4 = {[l4]} ∪ dom h3) by apply dom_insert_L.
  assert (Hne : l1 ≠ l2 ∧ l1 ≠ l3 ∧ l1 ≠ l4 ∧ l1 ≠ l5 ∧ l2 ≠ l3 ∧ l2 ≠ l4
                ∧ l2 ≠ l5 ∧ l3 ≠ l4 ∧ l3 ≠ l5 ∧ l4 ≠ l5).
  { rewrite Hd4, Hd3, Hd2, Hd1 in Hf5. rewrite Hd3, Hd2, Hd1 in Hf4.
    rewrite Hd2, Hd1 in Hf3. rewrite Hd1 in Hf2. clear -Hf2 Hf3 Hf4 Hf5.
    set_solver. }
  destruct Hne as (N12 & N13 & N14 & N15 & N23 & N24 & N25 & N34 & N35 & N45).
  assert (Hh : h5 !! l1 = Some (NewCircuitBreaker DefaultSettings)
               ∧ h5 !! l2 = Some (NewCircuitBreaker DefaultSettings)
               ∧ h5 !! l3 = Some (NewCircuitBreaker DefaultSettings)
               ∧ h5 !! l4 = Some (NewCircuitBreaker DefaultSettings)
               ∧ h5 !! l5 = Some (NewCircuitBreaker DefaultSettings)).
  { subst h5 h4 h3 h2 h1. split_and!;
      repeat first [ rewrite lookup_insert_eq | rewrite lookup_insert_ne by done ];
      done. }
  destruct Hh as (A1 & A2 & A3 & A4 & A5).
  unfold RegisterService, backend.
  cbn [fold_left fst snd CircuitBreaker Name services NewGateway].
  set (g := {| services := _ |}).
  assert (Hfive : ∀ name,
            name ∈ ["user-service"; "order-service"; "product-service";
                    "payment-service"; "notification-service"] →
            breaker_of g h5 name = Some (NewCircuitBreaker DefaultSettings)).
  { intros name Hin. unfold breaker_of. subst g. cbn [services].
    repeat (apply elem_of_cons in Hin as [->|Hin]);
      [..|by apply elem_of_nil in Hin];
      repeat first [ rewrite lookup_insert_eq | rewrite lookup_insert_ne by done ];
      cbn [mbind option_bind CircuitBreaker]; done. }
  split_and!.
  - subst g. cbn [services]. rewrite !dom_insert_L, dom_empty_L. set_solver.
  - intros method path name Hin. apply Hfive.
    pose proof routes_name_registered as Hall. rewrite Forall_forall in Hall.
    apply (Hall (method, path, name) Hin).
  - intros name service Hname. subst g. cbn [services] in Hname.
    split_lookup Hname; cbn [CircuitBreaker]; eauto.
  - intros name1 name2 s1 s2 Hdiff H1 H2. subst g. cbn [services] in H1, H2.
    split_lookup H1; split_lookup H2; cbn [CircuitBreaker]; congruence.
  - intros l cb Hl.
    assert (Hin : l ∈ dom h) by (apply elem_of_dom; eauto).
    assert (M1 : l ≠ l1) by (intros ->; done).
    assert (M2 : l ≠ l2) by (intros ->; apply Hf2; rewrite Hd1; clear -Hin; set_solver).
    assert (M3 : l ≠ l3) by (intros ->; apply Hf3; rewrite Hd2, Hd1; clear -Hin; set_solver).
    assert (M4 : l ≠ l4) by (intros ->; apply Hf4; rewrite Hd3, Hd2, Hd1; clear -Hin; set_solver).
    assert (M5 : l ≠ l5)
      by (intros ->; apply Hf5; rewrite Hd4, Hd3, Hd2, Hd1; clear -Hin; set_solver).
    subst h5 h4 h3 h2 h1. by rewrite !lookup_insert_ne by done.
Qed.

End MainFacts.

(** ** The further properties at concrete inputs *)

Module MoreExamples.
Import GoInt GoIntFacts Resilience Outcomes Proxy Dispatching Main Fixtures Scenarios.
Import BreakerFacts.

(** A failure, a success and a failure leave a breaker with
    [MaxFailures = 2] Closed, one failure counted. *)
Lemma closed_counts_failure_run_witness :
  let r := Executes mixed_calls (NewCircuitBreaker (settings_of 2 1)) 0%nat in
  r.2 = 3%nat ∧ failureCount r.1 = 1 ∧ state r.1 = StateClosed.
Proof.
  intros r.
  destruct (BreakerMore.closed_counts_failure_run mixed_outcomes mixed_calls
              (NewCircuitBreaker (settings_of 2 1)) 0%nat)
    as (H1 & _ & H3 & H4).
  - reflexivity.
  - reflexivity.
  - cbn. unfold max_int. lia.
  - repeat constructor; first [apply fail_at_fails | apply succeed_at_succeeds].
  - intros j Hj. cbn in Hj.
    destruct j as [|[|[|j]]]; cbn; lia.
  - exact (conj H1 (conj H3 H4)).
Defined.

(** Zero-valued settings. *)
Lemma thresholds_below_one_witness :
  let cb := NewCircuitBreaker
              {| MaxFailures := 0; ResetTimeout := 0; SuccessThreshold := 0;
                 Resilience.Timeout := 0 |} in
  state (onFailure 7 cb) = StateOpen.
Proof.
  intros cb.
  destruct (BreakerMore.thresholds_below_one cb 7) as [H _].
  - cbn. lia.
  - cbn. lia.
  - cbn. unfold max_int. lia.
  - cbn. unfold max_int. lia.
  - exact H.
Defined.

Lemma largest_reset_timeout_never_recovers_witness :
  let cb := opened {| MaxFailures := 5; ResetTimeout := max_int;
                      SuccessThreshold := 3; Resilience.Timeout := 30 * second |} in
  Execute (at_time (2 ^ 70)) succeeding_counter cb 0%nat
    = (cb, 0%nat, Some errCircuitOpen).
Proof.
  intros cb.
  destruct (BreakerMore.largest_reset_timeout_never_recovers cb (at_time (2 ^ 70))
              succeeding_counter 0%nat) as [_ H].
  - reflexivity.
  - cbn. lia.
  - exact H.
Defined.

Lemma stats_determine_breaker_witness :
  state (opened DefaultSettings) = state (opened (settings_of 5 1)).
Proof.
  destruct (BreakerMore.stats_determine_breaker (opened DefaultSettings)
              (opened (settings_of 5 1))) as [H _].
  - reflexivity.
  - exact H.
Defined.


(** Two retries of a call that keeps failing: three calls, and the error
    of the third comes back. *)
Lemma exhausted_returns_last_error_witness :
  Retry_Execute (retry_no_jitter 2) never_done no_random failing_numbered 4 0%nat =
  Some {| run_world := 3%nat;
          run_sleeps := [100 * millisecond; 200 * millisecond];
          run_result := Some "attempt 2" |}.
Proof.
  rewrite (RetryMore.exhausted_returns_last_error (retry_no_jitter 2) never_done
             no_random failing_numbered 4 0%nat).
  - vm_compute. reflexivity.
  - cbn. unfold max_int. lia.
  - reflexivity.
  - intros w. discriminate.
  - cbn. lia.
Defined.

(** Two failures, then a success: three calls, two waits, no error. *)
Lemma succeeds_after_failures_witness :
  Retry_Execute (retry_no_jitter 3) never_done no_random (flaky 2) 3 0%nat =
  Some {| run_world := 3%nat;
          run_sleeps := [100 * millisecond; 200 * millisecond];
          run_result := None |}.
Proof.
  rewrite (RetryMore.succeeds_after_failures (retry_no_jitter 3) never_done
             no_random (flaky 2) 2 3 0%nat).
  - vm_compute. reflexivity.
  - cbn. unfold max_int. lia.
  - reflexivity.
  - intros i Hi. destruct i as [|[|i]]; [discriminate|discriminate|lia].
  - reflexivity.
  - lia.
Defined.

(** Cancelled during the second wait: two calls, one wait, the context's
    error. *)
Lemma cancelled_during_wait_witness :
  Retry_Execute (retry_no_jitter 3) cancelled_at_2 no_random failing_numbered 3 0%nat =
  Some {| run_world := 2%nat;
          run_sleeps := [100 * millisecond];
          run_result := Some "context canceled" |}.
Proof.
  rewrite (RetryMore.cancelled_during_wait (retry_no_jitter 3) cancelled_at_2
             no_random failing_numbered 2 "context canceled" 3 0%nat).
  - vm_compute. reflexivity.
  - cbn. unfold max_int. lia.
  - intros i Hi. unfold cancelled_at_2.
    destruct (Z.eqb_spec i 2); [lia|reflexivity].
  - reflexivity.
  - intros i Hi. discriminate.
  - lia.
Defined.

Lemma negative_retries_never_call_witness :
  Retry_Execute (retry_no_jitter (-1)) never_done no_random failing_numbered 1 0%nat =
  Some {| run_world := 0%nat; run_sleeps := []; run_result := None |}.
Proof.
  apply (RetryMore.negative_retries_never_call (retry_no_jitter (-1)) never_done
           no_random failing_numbered 1 0%nat).
  - cbn. lia.
  - lia.
Defined.

(** Also where the product overflows. *)
Lemma delay_capped_witness :
  calculateDelay (retry_no_jitter 40) 0%float 38 ≤ 30 * second.
Proof.
  apply (RetryMore.delay_capped (retry_no_jitter 40) 0%float 38).
  reflexivity.
Defined.

(** The store of the two registered services. *)
Lemma two_services_store :
  services two_services.1 !! "user-service" =
    Some {| Name := "user-service"; URL := "http://127.0.0.1:1";
            HealthPath := "/health"; Timeout := 30 * second; Retries := 0;
            CircuitBreaker := Some 1%positive |}
  ∧ services two_services.1 !! "order-service" =
    Some {| Name := "order-service"; URL := "http://orders:8082/";
            HealthPath := "health"; Timeout := 30 * second; Retries := 0;
            CircuitBreaker := Some 2%positive |}
  ∧ two_services.2 !! 1%positive = Some (NewCircuitBreaker DefaultSettings)
  ∧ two_services.2 !! 2%positive = Some (NewCircuitBreaker DefaultSettings)
  ∧ services two_services.1 !! "cart-service" = None.
Proof. vm_compute. done. Qed.

Lemma unknown_service_is_404_witness :
  client_status <$>
    (snd <$> ProxyHandler parses "cart-service" (at_time 1) (Responded 200 "ok")
               two_services.1 two_services.2)
  = Some (Some StatusNotFound).
Proof.
  rewrite (GatewayMore.unknown_service_is_404 parses "cart-service" (at_time 1)
             (Responded 200 "ok") two_services.1 two_services.2).
  - reflexivity.
  - apply two_services_store.
Defined.

(** Thirty seconds after the breaker opened: 503, although the backend
    would have answered. *)
Lemma open_breaker_is_503_witness :
  ProxyHandler parses "user-service" (at_time (35 * second)) (Responded 200 "ok")
    two_services.1 first_open
  = Some (first_open, [unavailable "user-service"]).
Proof.
  destruct two_services_store as (H1 & _).
  apply (GatewayMore.open_breaker_is_503 parses "user-service" (at_time (35 * second))
           (Responded 200 "ok") two_services.1 first_open _ 1%positive
           (opened DefaultSettings) H1).
  - reflexivity.
  - reflexivity.
  - reflexivity.
  - vm_compute. discriminate.
Defined.

(** A 500 of the backend reaches the client and counts as a success. *)
Lemma backend_status_passes_through_witness :
  ProxyHandler parses "order-service" (at_time 1) (Responded 500 "boom")
    two_services.1 two_services.2
  = Some (<[2%positive := onSuccess (NewCircuitBreaker DefaultSettings)]> two_services.2,
          [ {| w_status := 500; w_body := Upstream "boom" |} ])
  ∧ failureCount (onSuccess (NewCircuitBreaker DefaultSettings)) = 0.
Proof.
  destruct two_services_store as (_ & H2 & _ & H4 & _).
  destruct (GatewayMore.backend_status_passes_through parses "order-service" (at_time 1)
              500 "boom" two_services.1 two_services.2 _ 2%positive
              (NewCircuitBreaker DefaultSettings) H2) as [Hrun Hclosed].
  - reflexivity.
  - exact H4.
  - reflexivity.
  - reflexivity.
  - discriminate.
  - split; [exact Hrun|]. by destruct (Hclosed eq_refl).
Defined.


(** A request for the order service leaves the breaker of the user
    service alone. *)
Lemma dispatch_touches_one_breaker_witness :
  ∃ h' w,
    ProxyHandler parses "order-service" (at_time 1) (Refused "x")
      two_services.1 first_open = Some (h', w)
    ∧ h' !! 1%positive = Some (opened DefaultSettings).
Proof.
  destruct two_services_store as (_ & H2 & _).
  assert (Hcb : first_open !! 2%positive = Some (NewCircuitBreaker DefaultSettings))
    by reflexivity.
  pose proof (GatewayMore.ProxyHandler_registered parses "order-service" (at_time 1)
                (Refused "x") two_services.1 first_open _ 2%positive _ H2 eq_refl Hcb)
    as Hrun.
  cbv zeta in Hrun.
  destruct (GatewayMore.dispatch_touches_one_breaker parses "order-service" (at_time 1)
              (Refused "x") two_services.1 first_open _ _ Hrun) as (_ & Hcells & _).
  eexists _, _. split; [exact Hrun|].
  rewrite (Hcells _ 2%positive H2 eq_refl 1%positive) by discriminate.
  reflexivity.
Defined.

Lemma register_gives_own_breaker_witness :
  let gh := RegisterService unreachable_service NewGateway ∅ in
  breaker_of gh.1 gh.2 "user-service" = Some (NewCircuitBreaker DefaultSettings)
  ∧ breakers_distinct gh.1.
Proof.
  intros gh.
  destruct (GatewayMore.register_gives_own_breaker unreachable_service NewGateway ∅)
    as (_ & Hdist & Hown & _).
  - reflexivity.
  - apply GatewayFacts.breakers_allocated_new.
  - intros n1 n2 s1 s2 _ H1. cbn in H1. by rewrite lookup_empty in H1.
  - exact (conj Hown Hdist).
Defined.

(** The order service with and without the two slashes. *)
Lemma health_url_ignores_slashes_witness :
  healthURL order_service = "http://orders:8082/health".
Proof.
  destruct (HealthURLFacts.health_url_ignores_slashes orders_up
              "http://orders:8082" "health" order_service order_service)
    as (H & _).
  - intros v Hv. pose proof (HealthURLFacts.TrimSuffix_app v "/") as Ht.
    rewrite <- Hv in Ht. vm_compute in Ht. subst v.
    apply (f_equal Strings.String.length) in Hv. vm_compute in Hv. discriminate.
  - intros v Hv. rewrite HealthURLFacts.app_cons_l in Hv. discriminate.
  - discriminate.
  - right. reflexivity.
  - left. reflexivity.
  - right. reflexivity.
  - left. reflexivity.
  - exact H.
Defined.

(** One service without a health path, and probes that would all fail. *)
Lemma no_health_path_is_healthy_witness :
  let gh := RegisterService moved_service NewGateway ∅ in
  ∃ resp,
    HealthCheckHandler (fun _ => ProbeFailed "down") gh.1 gh.2 7 = Some resp
    ∧ code resp = StatusOK.
Proof.
  intros gh.
  destruct (GatewayMore.no_health_path_is_healthy (fun _ => ProbeFailed "down")
              gh.1 gh.2 7) as (resp & Hrun & _ & Hcode).
  - apply GatewayFacts.RegisterService_allocated;
      [apply GatewayFacts.breakers_allocated_new|intros l Hl; discriminate Hl].
  - intros name service Hname. subst gh. cbn in Hname.
    apply lookup_insert_Some in Hname as [[_ <-]|[_ Hname]]; [reflexivity|].
    by rewrite lookup_empty in Hname.
  - exists resp. exact (conj Hrun Hcode).
Defined.

(** Three backends, three calls. *)
Lemma round_robin_rotates_witness :
  (SelectServices 3 three_backends {| current := 0 |}).2 = Selected <$> three_backends
  ∧ current (SelectServices 3 three_backends {| current := 0 |}).1 = 3.
Proof.
  destruct (BalancerFacts.round_robin_rotates three_backends 3 {| current := 0 |})
    as (H1 & _ & _ & H4).
  - discriminate.
  - cbn. lia.
  - cbn. unfold max_int. lia.
  - split; [apply H4; reflexivity|exact H1].
Defined.

(** Three does not divide 2^63. *)
Lemma round_robin_panics_after_wrap_witness :
  let r := SelectService three_backends {| current := max_int |} in
  current r.1 = min_int
  ∧ SelectService three_backends r.1 = (r.1, IndexOutOfRange).
Proof.
  intros r.
  destruct (BalancerFacts.round_robin_panics_after_wrap three_backends
              {| current := max_int |}) as (_ & H2 & H3).
  - discriminate.
  - reflexivity.
  - vm_compute. discriminate.
  - exact (conj H2 H3).
Defined.

End MoreExamples.
